(** * Query pipeline chat engine (docs/examples/pipeline/query_pipeline_memory.ipynb)

    A shallow embedding of the notebook's own code (the blank-line cleanup
    loop, the [ResponseWithChatHistory] component and the chat loop), of
    the compose descriptor shipped next to it, and of the pipeline core
    (link table, validator, executor, memory buffer) whose code lives in
    the library and is modelled here from the design document. *)

From Stdlib Require Import List String Ascii Bool Arith NArith Lia.
Import ListNotations.
Open Scope string_scope.
Open Scope list_scope.

(* ================================================================= *)
(** ** Python strings *)

Module PyStr.
Local Open Scope N_scope.

(** A Python [str] as the sequence of its code points. *)
Definition pystr := list N.

(** [Py_UNICODE_ISSPACE], the characters [str.strip()] removes: \t \n
    \v \f \r (U+0009-U+000D), the separators U+001C-U+001F, the space,
    U+0085, U+00A0, U+1680, U+2000-U+200A, U+2028, U+2029, U+202F, U+205F
    and U+3000. *)
Definition is_space (c : N) : bool :=
  ((0x09 <=? c) && (c <=? 0x0D)) || ((0x1C <=? c) && (c <=? 0x20)) ||
  (c =? 0x85) || (c =? 0xA0) || (c =? 0x1680) ||
  ((0x2000 <=? c) && (c <=? 0x200A)) || (c =? 0x2028) || (c =? 0x2029) ||
  (c =? 0x202F) || (c =? 0x205F) || (c =? 0x3000).

Fixpoint drop_space (l : pystr) : pystr :=
  match l with
  | [] => []
  | c :: t => if is_space c then drop_space t else l
  end.

(** [str.strip()]: whitespace removed at both ends. *)
Definition strip (s : pystr) : pystr := rev (drop_space (rev (drop_space s))).

(** The test [s.strip() == ""]. *)
Definition strip_empty (s : pystr) : bool :=
  match strip s with [] => true | _ :: _ => false end.

(** A [str] literal whose characters are below U+0100. *)
Definition of_string (s : string) : pystr :=
  map (fun a => N.of_nat (nat_of_ascii a)) (list_ascii_of_string s).

End PyStr.

(* ================================================================= *)
(** ** The blank-line cleanup loop (notebook cell 4)

<<
lines = documents[0].text.split("\n")
fixed_lines = [lines[0]]
for idx in range(1, len(lines)):
    if lines[idx].strip() == "" and lines[idx - 1].strip() == "":
        continue
    fixed_lines.append(lines[idx])
>>
*)

Module Cleanup.
Import PyStr.

(** The loop body for [idx = 1 .. len(lines)-1]; [prev] is
    [lines[idx - 1]] of the original list, [rest] is [lines[idx:]]. *)
Fixpoint fix_loop (prev : pystr) (rest : list pystr) : list pystr :=
  match rest with
  | [] => []
  | line :: rest' =>
      if strip_empty line && strip_empty prev
      then fix_loop line rest'
      else line :: fix_loop line rest'
  end.

(** [fixed_lines] after the loop; [None] is the [IndexError] raised by
    [lines[0]] on an empty list. *)
Definition fixed_lines (lines : list pystr) : option (list pystr) :=
  match lines with
  | [] => None
  | l0 :: rest => Some (l0 :: fix_loop l0 rest)
  end.

Inductive subseq {A} : list A -> list A -> Prop :=
| subseq_nil : subseq [] []
| subseq_keep x l1 l2 : subseq l1 l2 -> subseq (x :: l1) (x :: l2)
| subseq_skip x l1 l2 : subseq l1 l2 -> subseq l1 (x :: l2).

Fixpoint no_two_blank (l : list pystr) : Prop :=
  match l with
  | x :: ((y :: _) as t) =>
      ~ (strip_empty x = true /\ strip_empty y = true) /\ no_two_blank t
  | _ => True
  end.

Definition non_blank (s : pystr) : bool := negb (strip_empty s).

End Cleanup.

(* ================================================================= *)
(** ** Python objects: messages, lists on a heap, exceptions *)

Module Py.

Inductive MessageRole := User | Assistant | System.

(** [ChatMessage(role=..., content=...)]. *)
Record ChatMessage := { role : MessageRole; content : string }.

(** [ChatResponse]; the loop reads [response.message]. *)
Record ChatResponse := { message : ChatMessage }.

(** [NodeWithScore]; [node_llm_content] is what
    [node.get_content(metadata_mode="llm")] returns. *)
Record NodeWithScore := { node_llm_content : string; node_score : nat }.

(** The exceptions raised on the paths modelled here.  [Unmodelled] is
    not a Python exception: it marks a result outside the model (see
    [get_accessors]). *)
Inductive PyError :=
| KeyError (key : string)
| ValueError (msg : string)
| IndexError (msg : string)
| TypeError (msg : string)
| AttributeError (msg : string)
| LLMError (msg : string)
| Unmodelled (what : string).

(** Python lists of messages are mutable objects shared by reference:
    a heap of list cells with an allocation pointer. *)
Definition ref := nat.
Record Heap := { cells : ref -> list ChatMessage; next : ref }.

Definition read (h : Heap) (r : ref) : list ChatMessage := cells h r.

Definition write (h : Heap) (r : ref) (l : list ChatMessage) : Heap :=
  {| cells := fun r' => if Nat.eqb r' r then l else cells h r';
     next := next h |}.

(** A new list object. *)
Definition alloc (h : Heap) (l : list ChatMessage) : Heap * ref :=
  ({| cells := fun r' => if Nat.eqb r' (next h) then l else cells h r';
      next := S (next h) |}, next h).

Definition empty_heap : Heap := {| cells := fun _ => []; next := 0 |}.

(** Computations that update the heap and may raise; a raised exception
    keeps the heap as it was at the point of the raise. *)
Definition M (A : Type) := Heap -> Heap * (PyError + A).

Definition ret {A} (a : A) : M A := fun h => (h, inr a).
Definition raise {A} (e : PyError) : M A := fun h => (h, inl e).
Definition bind {A B} (m : M A) (f : A -> M B) : M B :=
  fun h => match m h with
           | (h', inl e) => (h', inl e)
           | (h', inr a) => f a h'
           end.

Notation "x <- m ;; k" := (bind m (fun x => k))
  (at level 61, m at next level, right associativity).

Definition get_heap : M Heap := fun h => (h, inr h).
Definition modify (f : Heap -> Heap) : M unit := fun h => (f h, inr tt).
Definition lift {A} (r : PyError + A) : M A := fun h => (h, r).

(** [lst.append(x)] *)
Definition list_append (r : ref) (x : ChatMessage) : M unit :=
  modify (fun h => write h r (read h r ++ [x])).

(** [[x] + lst]: a new list object. *)
Definition list_prepend_new (x : ChatMessage) (r : ref) : M ref :=
  fun h => let (h', r') := alloc h (x :: read h r) in (h', inr r').

(** [str(n)] for a natural number. *)
Definition digit (d : nat) : string :=
  String (ascii_of_nat (48 + d)) EmptyString.

Fixpoint str_nat_fuel (fuel n : nat) : string :=
  match fuel with
  | 0 => digit n
  | S f => if Nat.ltb n 10 then digit n
           else str_nat_fuel f (Nat.div n 10) ++ digit (Nat.modulo n 10)
  end.

Definition str_nat (n : nat) : string := str_nat_fuel n n.

Definition nl : string := String (ascii_of_nat 10) EmptyString.

(** *** [str.format] (CPython 3.11, Objects/stringlib/unicode_format.h
    and Python/formatter_unicode.c)

    A Python string is a Rocq string read as Latin-1: each byte is the
    code point of the same value.  The arguments are keyword arguments
    whose values are [str]; there are no positional arguments. *)

Fixpoint lookup_kw (k : string) (kws : list (string * string)) : option string :=
  match kws with
  | [] => None
  | (k', v) :: t => if String.eqb k k' then Some v else lookup_kw k t
  end.

Definition code (c : ascii) : nat := nat_of_ascii c.

Definition chr_eqb (c : ascii) (n : nat) : bool := Nat.eqb (code c) n.

(** The characters the parser looks for. *)
Definition LBRACE := 123.
Definition RBRACE := 125.
Definition LBRACKET := 91.
Definition RBRACKET := 93.
Definition DOT := 46.
Definition COLON := 58.
Definition BANG := 33.

Definition sbind {A B} (x : PyError + A) (f : A -> PyError + B) : PyError + B :=
  match x with inl e => inl e | inr a => f a end.

Definition hex_digit (d : nat) : ascii :=
  if Nat.ltb d 10 then ascii_of_nat (48 + d) else ascii_of_nat (87 + d).

(** ["%x"] of a code point below 256. *)
Definition hex (n : nat) : list ascii :=
  if Nat.ltb n 16 then [hex_digit n] else [hex_digit (n / 16); hex_digit (n mod 16)].

(** ["\\x%02x"] *)
Definition hex_escape (n : nat) : list ascii :=
  [ascii_of_nat 92; "x"%char; hex_digit (n / 16); hex_digit (n mod 16)].

(** [str(n)] of a [Py_ssize_t] index. *)
Fixpoint str_N_fuel (fuel : nat) (n : N) : string :=
  match fuel with
  | 0 => ""
  | S f => (if N.ltb n 10 then "" else str_N_fuel f (N.div n 10))
           ++ digit (N.to_nat (N.modulo n 10))
  end.

Definition str_N (n : N) : string := str_N_fuel 20 n.

Definition PY_SSIZE_T_MAX : N := 9223372036854775807.

Definition is_decimal (c : ascii) : bool := Nat.leb 48 (code c) && Nat.leb (code c) 57.

Definition too_many_digits : PyError :=
  ValueError "Too many decimal digits in format string".

(** [get_integer] of unicode_format.h: [None] (-1) for an empty string
    or one with a non-digit, [ValueError] on overflow, which is detected
    digit by digit from the left. *)
Fixpoint get_integer_go (acc : N) (s : list ascii) : PyError + option N :=
  match s with
  | [] => inr (Some acc)
  | c :: t =>
      if is_decimal c then
        let d := N.of_nat (code c - 48) in
        if N.ltb (N.div (PY_SSIZE_T_MAX - d) 10) acc then inl too_many_digits
        else get_integer_go (acc * 10 + d)%N t
      else inr None
  end.

Definition get_integer (s : list ascii) : PyError + option N :=
  match s with [] => inr None | _ => get_integer_go 0 s end.

(** **** Parsing a replacement field *)

(** Literal text up to the first brace. *)
Fixpoint scan_literal (s : list ascii) : list ascii * option (ascii * list ascii) :=
  match s with
  | [] => ([], None)
  | c :: t =>
      if chr_eqb c LBRACE || chr_eqb c RBRACE then ([], Some (c, t))
      else let (l, r) := scan_literal t in (c :: l, r)
  end.

(** The field name, up to [}], [:] or [!]; inside [[...]] every
    character belongs to the name.  Returns the name, the terminator and
    the rest. *)
Fixpoint scan_name (in_bracket : bool) (s : list ascii)
    : PyError + (list ascii * ascii * list ascii) :=
  match s with
  | [] => inl (ValueError "expected '}' before end of string")
  | c :: t =>
      let cont b := sbind (scan_name b t) (fun '(n, e, r) => inr (c :: n, e, r)) in
      if in_bracket then cont (negb (chr_eqb c RBRACKET))
      else if chr_eqb c LBRACE then inl (ValueError "unexpected '{' in field name")
      else if chr_eqb c LBRACKET then cont true
      else if chr_eqb c RBRACE || chr_eqb c COLON || chr_eqb c BANG then inr ([], c, t)
      else cont false
  end.

(** The format spec, up to the [}] that closes the field; nested braces
    are counted and mark the spec for expansion. *)
Fixpoint scan_spec (count : nat) (expand : bool) (s : list ascii)
    : PyError + (list ascii * bool * list ascii) :=
  match s with
  | [] => inl (ValueError "unmatched '{' in format spec")
  | c :: t =>
      if chr_eqb c LBRACE then
        sbind (scan_spec (S count) true t) (fun '(sp, x, r) => inr (c :: sp, x, r))
      else if chr_eqb c RBRACE then
        if Nat.eqb count 1 then inr ([], expand, t)
        else sbind (scan_spec (pred count) expand t) (fun '(sp, x, r) => inr (c :: sp, x, r))
      else sbind (scan_spec count expand t) (fun '(sp, x, r) => inr (c :: sp, x, r))
  end.

Record Field := {
  field_name : list ascii;
  conversion : option ascii;
  format_spec : list ascii;
  format_spec_needs_expanding : bool }.

(** [parse_field], after the opening brace. *)
Definition parse_field (s : list ascii) : PyError + (Field * list ascii) :=
  sbind (scan_name false s) (fun '(name, c, rest) =>
  let spec conv r := sbind (scan_spec 1 false r) (fun '(sp, x, r') =>
        inr ({| field_name := name; conversion := conv; format_spec := sp;
                format_spec_needs_expanding := x |}, r')) in
  if chr_eqb c RBRACE then
    inr ({| field_name := name; conversion := None; format_spec := [];
            format_spec_needs_expanding := false |}, rest)
  else if chr_eqb c COLON then spec None rest
  else match rest with
       | [] => inl (ValueError "end of string while looking for conversion specifier")
       | conv :: r =>
           match r with
           | [] => spec (Some conv) []
           | c' :: r' =>
               if chr_eqb c' RBRACE then
                 inr ({| field_name := name; conversion := Some conv; format_spec := [];
                         format_spec_needs_expanding := false |}, r')
               else if chr_eqb c' COLON then spec (Some conv) r'
               else inl (ValueError "expected ':' after conversion specifier")
           end
       end).

(** **** The object a field names *)

(** The attributes of a [str] object ([dir(str)]). *)
Definition str_attributes : list string :=
  ["__add__"; "__class__"; "__contains__"; "__delattr__"; "__dir__"; "__doc__";
   "__eq__"; "__format__"; "__ge__"; "__getattribute__"; "__getitem__";
   "__getnewargs__"; "__getstate__"; "__gt__"; "__hash__"; "__init__";
   "__init_subclass__"; "__iter__"; "__le__"; "__len__"; "__lt__"; "__mod__";
   "__mul__"; "__ne__"; "__new__"; "__reduce__"; "__reduce_ex__"; "__repr__";
   "__rmod__"; "__rmul__"; "__setattr__"; "__sizeof__"; "__str__";
   "__subclasshook__"; "capitalize"; "casefold"; "center"; "count"; "encode";
   "endswith"; "expandtabs"; "find"; "format"; "format_map"; "index"; "isalnum";
   "isalpha"; "isascii"; "isdecimal"; "isdigit"; "isidentifier"; "islower";
   "isnumeric"; "isprintable"; "isspace"; "istitle"; "isupper"; "join"; "ljust";
   "lower"; "lstrip"; "maketrans"; "partition"; "removeprefix"; "removesuffix";
   "replace"; "rfind"; "rindex"; "rjust"; "rpartition"; "rsplit"; "rstrip";
   "split"; "splitlines"; "startswith"; "strip"; "swapcase"; "title"; "translate";
   "upper"; "zfill"].

(** The name part up to the first [.] or [[]. *)
Fixpoint take_attr (s : list ascii) : list ascii * list ascii :=
  match s with
  | [] => ([], [])
  | c :: t =>
      if chr_eqb c DOT || chr_eqb c LBRACKET then ([], s)
      else let (a, r) := take_attr t in (c :: a, r)
  end.

(** The key of [[key]], the closing bracket consumed. *)
Fixpoint take_item (s : list ascii) : option (list ascii * list ascii) :=
  match s with
  | [] => None
  | c :: t =>
      if chr_eqb c RBRACKET then Some ([], t)
      else match take_item t with Some (a, r) => Some (c :: a, r) | None => None end
  end.

Definition empty_attribute : PyError := ValueError "Empty attribute in format string".

(** What a field name designates: a [str], or an attribute of one that
    [str] has.  Such an attribute is a method (or the class, or the doc
    string); the text of a method holds a memory address, so what is done
    with it beyond the errors raised before its text is needed is outside
    the model. *)
Inductive Obj := StrObj (v : list ascii) | AttrObj (name : string).

(** The [.attr] and [[key]] accessors, parsed and applied one at a
    time. *)
Fixpoint get_accessors (fuel : nat) (o : Obj) (rest : list ascii) : PyError + Obj :=
  match fuel with
  | 0 => inr o
  | S f =>
      match rest with
      | [] => inr o
      | c :: t =>
          if chr_eqb c DOT then
            match take_attr t with
            | ([], _) => inl empty_attribute
            | (name, r) =>
                let n := string_of_list_ascii name in
                match o with
                | StrObj _ =>
                    if existsb (String.eqb n) str_attributes
                    then get_accessors f (AttrObj n) r
                    else inl (AttributeError ("'str' object has no attribute '" ++ n ++ "'"))
                | AttrObj a => inl (Unmodelled ("attribute " ++ n ++ " of str." ++ a))
                end
            end
          else if chr_eqb c LBRACKET then
            match take_item t with
            | None => inl (ValueError "Missing ']' in format string")
            | Some (key, r) =>
                sbind (get_integer key) (fun idx =>
                match key, idx, o with
                | [], _, _ => inl empty_attribute
                | _, _, AttrObj a => inl (Unmodelled ("item of str." ++ a))
                | _, Some i, StrObj v =>
                    if N.ltb i (N.of_nat (List.length v))
                    then get_accessors f (StrObj [nth (N.to_nat i) v "000"%char]) r
                    else inl (IndexError "string index out of range")
                | _, None, StrObj _ =>
                    inl (TypeError "string indices must be integers, not 'str'")
                end)
            end
          else inl (ValueError "Only '.' or '[' may follow ']' in format field specifier")
      end
  end.

(** **** Conversions [!s], [!r], [!a] *)

Definition printable_latin1 (n : nat) : bool :=
  negb (Nat.leb 128 n && Nat.leb n 160) && negb (Nat.eqb n 173).

(** One character of [repr(s)] ([ascii(s)] when [only_ascii]) with
    quote [q]. *)
Definition repr_char (only_ascii : bool) (q : ascii) (c : ascii) : list ascii :=
  let n := code c in
  if Ascii.eqb c q || Nat.eqb n 92 then [ascii_of_nat 92; c]
  else if Nat.eqb n 9 then [ascii_of_nat 92; "t"%char]
  else if Nat.eqb n 10 then [ascii_of_nat 92; "n"%char]
  else if Nat.eqb n 13 then [ascii_of_nat 92; "r"%char]
  else if Nat.ltb n 32 || Nat.eqb n 127 then hex_escape n
  else if Nat.ltb n 127 then [c]
  else if negb only_ascii && printable_latin1 n then [c]
  else hex_escape n.

(** [repr] of a [str]: double quotes when the text has a single quote
    and no double quote, single quotes otherwise. *)
Definition repr_str (only_ascii : bool) (v : list ascii) : list ascii :=
  let sq := "'"%char in
  let dq := ascii_of_nat 34 in
  let q := if existsb (Ascii.eqb sq) v && negb (existsb (Ascii.eqb dq) v)
           then dq else sq in
  q :: flat_map (repr_char only_ascii q) v ++ [q].

(** [do_conversion]; the [str] of an attribute object is that object's
    text, which stays outside the model. *)
Definition convert (conv : option ascii) (o : Obj) : PyError + Obj :=
  match conv with
  | None => inr o
  | Some c =>
      if Ascii.eqb c "s"%char then inr o
      else if Ascii.eqb c "r"%char then
        inr (match o with StrObj v => StrObj (repr_str false v) | AttrObj _ => o end)
      else if Ascii.eqb c "a"%char then
        inr (match o with StrObj v => StrObj (repr_str true v) | AttrObj _ => o end)
      else inl (ValueError ("Unknown conversion specifier " ++
             string_of_list_ascii
               (if Nat.ltb 32 (code c) && Nat.ltb (code c) 127 then [c]
                else ascii_of_nat 92 :: "x"%char :: hex (code c))))
  end.

(** **** The format spec of a [str] ([str.__format__]) *)

Record FormatSpec := {
  fill_char : ascii;
  align : ascii;
  sign : option ascii;
  no_neg_0 : bool;
  alternate : bool;
  width : option N;
  thousands : option ascii;
  precision : option N;
  type : ascii }.

Definition is_alignment_token (c : ascii) : bool :=
  chr_eqb c 60 || chr_eqb c 62 || chr_eqb c 61 || chr_eqb c 94.

Definition is_sign_element (c : ascii) : bool :=
  chr_eqb c 32 || chr_eqb c 43 || chr_eqb c 45.

(** [get_integer] of formatter_unicode.c: the value and the number of
    digits read. *)
Fixpoint spec_integer (acc : N) (count : nat) (s : list ascii)
    : PyError + (N * nat * list ascii) :=
  match s with
  | c :: t =>
      if is_decimal c then
        let d := N.of_nat (code c - 48) in
        if N.ltb (N.div (PY_SSIZE_T_MAX - d) 10) acc then inl too_many_digits
        else spec_integer (acc * 10 + d)%N (S count) t
      else inr (acc, count, s)
  | [] => inr (acc, count, [])
  end.

Definition show_code (c : ascii) : list ascii :=
  if Nat.ltb 32 (code c) && Nat.ltb (code c) 128 then [c]
  else ascii_of_nat 92 :: "x"%char :: hex (code c).

(** [parse_internal_render_format_spec] with the defaults of [str]:
    type [s], alignment [<]. *)
Definition parse_spec (spec : list ascii) : PyError + FormatSpec :=
  let '(fill, fill_given, al, al_given, s1) :=
    match spec with
    | f :: a :: t =>
        if is_alignment_token a then (f, true, a, true, t)
        else if is_alignment_token f then (" "%char, false, f, true, a :: t)
        else (" "%char, false, "<"%char, false, spec)
    | [a] => if is_alignment_token a then (" "%char, false, a, true, [])
             else (" "%char, false, "<"%char, false, spec)
    | [] => (" "%char, false, "<"%char, false, [])
    end in
  let '(sg, s2) := match s1 with
                   | c :: t => if is_sign_element c then (Some c, t) else (None, s1)
                   | [] => (None, []) end in
  let '(z, s3) := match s2 with
                  | c :: t => if Ascii.eqb c "z"%char then (true, t) else (false, s2)
                  | [] => (false, []) end in
  let '(alt, s4) := match s3 with
                    | c :: t => if Ascii.eqb c "#"%char then (true, t) else (false, s3)
                    | [] => (false, []) end in
  let '(fill, s5) := match s4 with
                     | c :: t => if negb fill_given && Ascii.eqb c "0"%char
                                 then ("0"%char, t) else (fill, s4)
                     | [] => (fill, []) end in
  sbind (spec_integer 0 0 s5) (fun '(w, nw, s6) =>
  let wd := if Nat.eqb nw 0 then None else Some w in
  let '(th, s7) := match s6 with
                   | c :: t => if Ascii.eqb c ","%char then (Some ","%char, t) else (None, s6)
                   | [] => (None, []) end in
  let th7 := match s7 with
             | c :: t => if Ascii.eqb c "_"%char then
                           match th with
                           | Some _ => inl (ValueError "Cannot specify both ',' and '_'.")
                           | None => inr (Some "_"%char, t)
                           end
                         else inr (th, s7)
             | [] => inr (th, []) end in
  sbind th7 (fun '(th, s8) =>
  let chk := match s8, th with
             | c :: _, Some u => if Ascii.eqb c ","%char && Ascii.eqb u "_"%char
                                 then inl (ValueError "Cannot specify both ',' and '_'.")
                                 else inr tt
             | _, _ => inr tt end in
  sbind chk (fun _ =>
  let prec := match s8 with
              | c :: t => if Ascii.eqb c "."%char then
                            sbind (spec_integer 0 0 t) (fun '(p, np, r) =>
                              if Nat.eqb np 0
                              then inl (ValueError "Format specifier missing precision")
                              else inr (Some p, r))
                          else inr (None, s8)
              | [] => inr (None, []) end in
  sbind prec (fun '(pr, s9) =>
  let ty := match s9 with
            | [] => inr "s"%char
            | [t] => inr t
            | _ => inl (ValueError ("Invalid format specifier '" ++ string_of_list_ascii spec
                                    ++ "' for object of type 'str'"))
            end in
  sbind ty (fun t =>
  let chk_th := match th with
                | None => inr tt
                | Some u =>
                    if existsb (fun k => chr_eqb t k) [100; 101; 102; 103; 69; 71; 37; 70; 0]
                    then inr tt
                    else if existsb (fun k => chr_eqb t k) [98; 111; 120; 88] && Ascii.eqb u "_"%char
                    then inr tt
                    else inl (ValueError ("Cannot specify '" ++ String u EmptyString ++ "' with '"
                                          ++ string_of_list_ascii (show_code t) ++ "'."))
                end in
  sbind chk_th (fun _ =>
  inr {| fill_char := fill; align := al; sign := sg; no_neg_0 := z; alternate := alt;
         width := wd; thousands := th; precision := pr; type := t |})))))).

(** [format(value, spec)] for a [str] value. *)
Definition format_str (v : list ascii) (spec : list ascii) : PyError + list ascii :=
  match spec with
  | [] => inr v
  | _ =>
      sbind (parse_spec spec) (fun fs =>
      if negb (Ascii.eqb (type fs) "s"%char) then
        inl (ValueError ("Unknown format code '" ++ string_of_list_ascii (show_code (type fs))
                         ++ "' for object of type 'str'"))
      else match sign fs with
      | Some c => if chr_eqb c 32
                  then inl (ValueError "Space not allowed in string format specifier")
                  else inl (ValueError "Sign not allowed in string format specifier")
      | None =>
          if no_neg_0 fs then
            inl (ValueError "Negative zero coercion (z) not allowed in string format specifier")
          else if alternate fs then
            inl (ValueError "Alternate form (#) not allowed in string format specifier")
          else if chr_eqb (align fs) 61 then
            inl (ValueError "'=' alignment not allowed in string format specifier")
          else
            let v' := match precision fs with
                      | Some p => firstn (N.to_nat p) v | None => v end in
            let len := List.length v' in
            let total := match width fs with
                         | Some w => Nat.max (N.to_nat w) len | None => len end in
            let lpad := if chr_eqb (align fs) 62 then total - len
                        else if chr_eqb (align fs) 94 then (total - len) / 2 else 0 in
            let rpad := total - len - lpad in
            inr (repeat (fill_char fs) lpad ++ v' ++ repeat (fill_char fs) rpad)
      end)
  end.

(** **** Rendering *)

Definition replacement_index_error (i : N) : PyError :=
  IndexError ("Replacement index " ++ str_N i ++ " out of range for positional args tuple").

(** [output_markup]: look the field up ([get_field_object]), convert it,
    expand the spec with [expand_spec] when it holds fields, format.
    A numeric or empty field name indexes the positional arguments,
    of which there are none.  [inr None] is a text outside the model (the
    text of an attribute object, or a spec built from one). *)
Definition render_field (expand_spec : list ascii -> PyError + option (list ascii))
    (kws : list (string * string)) (fld : Field) : PyError + option (list ascii) :=
  let (first, rest) := take_attr (field_name fld) in
  sbind (get_integer first) (fun idx =>
  match first, idx with
  | [], _ => inl (replacement_index_error 0)
  | _, Some i => inl (replacement_index_error i)
  | _, None =>
      let key := string_of_list_ascii first in
      match lookup_kw key kws with
      | None => inl (KeyError key)
      | Some v =>
          sbind (get_accessors (S (List.length rest)) (StrObj (list_ascii_of_string v)) rest)
            (fun obj =>
          sbind (convert (conversion fld) obj) (fun obj =>
          sbind (if format_spec_needs_expanding fld then expand_spec (format_spec fld)
                 else inr (Some (format_spec fld))) (fun spec =>
          match obj, spec with
          | StrObj v, Some sp => sbind (format_str v sp) (fun r => inr (Some r))
          | _, _ => inr None
          end)))
      end
  end).

Definition cons_text (lit : list ascii) (v r : option (list ascii)) : option (list ascii) :=
  match v, r with Some v, Some r => Some (lit ++ v ++ r) | _, _ => None end.

(** [build_string] at recursion depth [depth]: the markup iterator over
    the template, with [{{] and [}}] as literal braces; the fields are
    rendered from left to right and the first exception is raised.  Every
    step consumes a character, so the fuel [1 + length] is never
    exhausted. *)
Fixpoint build_string (depth : nat) (kws : list (string * string)) (s : list ascii)
    : PyError + option (list ascii) :=
  match depth with
  | 0 => inl (ValueError "Max string recursion exceeded")
  | S d =>
      let fix markup (fuel : nat) (s : list ascii) : PyError + option (list ascii) :=
        match fuel with
        | 0 => inr (Some [])
        | S f =>
            match scan_literal s with
            | (lit, None) => inr (Some lit)
            | (lit, Some (c, t)) =>
                if chr_eqb c RBRACE then
                  match t with
                  | c' :: t' =>
                      if chr_eqb c' RBRACE
                      then sbind (markup f t') (fun r => inr (cons_text lit (Some [c]) r))
                      else inl (ValueError "Single '}' encountered in format string")
                  | [] => inl (ValueError "Single '}' encountered in format string")
                  end
                else
                  match t with
                  | [] => inl (ValueError "Single '{' encountered in format string")
                  | c' :: t' =>
                      if chr_eqb c' LBRACE
                      then sbind (markup f t') (fun r => inr (cons_text lit (Some [c]) r))
                      else
                        sbind (parse_field t) (fun '(fld, rest) =>
                        sbind (render_field (build_string d kws) kws fld) (fun v =>
                        sbind (markup f rest) (fun r => inr (cons_text lit v r))))
                  end
            end
        end
      in markup (S (List.length s)) s
  end.

(** [template.format(node_context=..., query_str=...)] for the keywords [kws]. *)
Definition format (template : string) (kws : list (string * string))
    : PyError + string :=
  match build_string 2 kws (list_ascii_of_string template) with
  | inr (Some r) => inr (string_of_list_ascii r)
  | inr None => inl (Unmodelled "text of a str attribute")
  | inl e => inl e
  end.

(** The builtin the component calls as [self.context_prompt.format(...)];
    [python_str_format] is CPython's. *)
Class StrFormat := { str_format : string -> list (string * string) -> PyError + string }.

#[global] Instance python_str_format : StrFormat := {| str_format := format |}.

End Py.

(* ================================================================= *)
(** ** The custom component [ResponseWithChatHistory] (notebook cell 6) *)

Module Component.
Import Py.

(** An LLM client: [chat] and [achat] may raise. *)
Record LLM := {
  chat : list ChatMessage -> PyError + ChatResponse;
  achat : list ChatMessage -> PyError + ChatResponse }.

Definition DEFAULT_CONTEXT_PROMPT : string :=
  "Here is some context that may be relevant:" ++ nl ++
  "-----" ++ nl ++
  "{node_context}" ++ nl ++
  "-----" ++ nl ++
  "Please write a response to the following question, using the above context:" ++ nl ++
  "{query_str}" ++ nl.

(** The pydantic fields of the component. *)
Record ResponseWithChatHistory := {
  llm : LLM;
  system_prompt : option string;
  context_prompt : string }.

(** The required inputs [kwargs["chat_history"]], [kwargs["nodes"]],
    [kwargs["query_str"]]; the history is a reference to a list object. *)
Record RunKwargs := {
  kw_chat_history : ref;
  kw_nodes : list NodeWithScore;
  kw_query_str : string }.

(** [for idx, node in enumerate(nodes): node_context += ...] *)
Fixpoint node_context_from (idx : nat) (nodes : list NodeWithScore) : string :=
  match nodes with
  | [] => ""
  | node :: rest =>
      ("Context Chunk " ++ str_nat idx ++ ":" ++ nl ++ node_llm_content node
        ++ nl ++ nl) ++ node_context_from (S idx) rest
  end.

Section Formatting.
(** The [str.format] builtin the component relies on. *)
Context {F : StrFormat}.

Definition user_message_for (self : ResponseWithChatHistory)
    (nodes : list NodeWithScore) (query_str : string) : PyError + ChatMessage :=
  match str_format (context_prompt self)
          [("node_context", node_context_from 0 nodes); ("query_str", query_str)] with
  | inr formatted_context => inr {| role := User; content := formatted_context |}
  | inl e => inl e
  end.

Definition _prepare_context (self : ResponseWithChatHistory) (chat_history : ref)
    (nodes : list NodeWithScore) (query_str : string) : M ref :=
  user_message <- lift (user_message_for self nodes query_str) ;;
  _ <- list_append chat_history user_message ;;
  match system_prompt self with
  | Some sp => list_prepend_new {| role := System; content := sp |} chat_history
  | None => ret chat_history
  end.

(** [_run_component] and [_arun_component] call the notebook's module-level
    [llm] ([notebook_llm]), as written in the source. *)
Definition _run_component (notebook_llm : LLM) (self : ResponseWithChatHistory)
    (kwargs : RunKwargs) : M ChatResponse :=
  prepared_context <-
    _prepare_context self (kw_chat_history kwargs) (kw_nodes kwargs)
      (kw_query_str kwargs) ;;
  h <- get_heap ;;
  lift (chat notebook_llm (read h prepared_context)).

Definition _arun_component (notebook_llm : LLM) (self : ResponseWithChatHistory)
    (kwargs : RunKwargs) : M ChatResponse :=
  prepared_context <-
    _prepare_context self (kw_chat_history kwargs) (kw_nodes kwargs)
      (kw_query_str kwargs) ;;
  h <- get_heap ;;
  lift (achat notebook_llm (read h prepared_context)).

(** The component as the notebook constructs it, for a given client. *)
Definition notebook_system_prompt : string :=
  "You are a Q&A system. You will be provided with the previous chat history, "
  ++ "as well as possibly relevant context, to assist in answering a user message.".

Definition notebook_response_component (l : LLM) : ResponseWithChatHistory :=
  {| llm := l; system_prompt := Some notebook_system_prompt;
     context_prompt := DEFAULT_CONTEXT_PROMPT |}.

(** A client that always answers [text]. *)
Definition const_llm (text : string) : LLM :=
  {| chat := fun _ => inr {| message := {| role := Assistant; content := text |} |};
     achat := fun _ => inr {| message := {| role := Assistant; content := text |} |} |}.

(** A client whose calls raise (rate limit, network failure, ...). *)
Definition failing_llm : LLM :=
  {| chat := fun _ => inl (LLMError "rate limited");
     achat := fun _ => inl (LLMError "rate limited") |}.

(** A heap holding one list object [[user: Hello!]] at reference 0. *)
Definition heap_one : Heap :=
  {| cells := fun r => if Nat.eqb r 0
                       then [{| role := User; content := "Hello!" |}] else [];
     next := 1 |}.

(** What a component using its own field would answer. *)
Definition response_via_self_llm (self : ResponseWithChatHistory)
    (kwargs : RunKwargs) : M ChatResponse :=
  prepared_context <-
    _prepare_context self (kw_chat_history kwargs) (kw_nodes kwargs)
      (kw_query_str kwargs) ;;
  h <- get_heap ;;
  lift (chat (llm self) (read h prepared_context)).

End Formatting.

End Component.

(* ================================================================= *)
(** ** The memory buffer *)

Module Memory.
Import Py.

Section Eviction.
Variable Entry : Type.
(** The injected sizing function (a token count) and the budget. *)
Variable size : list Entry -> nat.
Variable budget : nat.

(** Modelled from the spec: the eviction policy of [ChatMemoryBuffer]
    (llama_index.core.memory, not part of this fragment). [append(entry)]
    adds the entry at the tail; while the total size exceeds the budget
    and more than one entry remains, the head is evicted. *)
Fixpoint evict_head (l : list Entry) : list Entry :=
  match l with
  | x :: ((_ :: _) as t) => if Nat.ltb budget (size l) then evict_head t else l
  | _ => l
  end.

Definition append (buf : list Entry) (entry : Entry) : list Entry :=
  evict_head (buf ++ [entry]).

End Eviction.

(** Modelled from the spec: a [ChatMemoryBuffer] owns one list object
    [mem_ref]; [put] is [append]; [get] ([snapshot]) returns the current
    sequence as a new list object and does not mutate the buffer. *)
Record ChatMemoryBuffer := {
  mem_ref : ref;
  token_limit : nat;
  tokenizer : list ChatMessage -> nat }.

Definition get (m : ChatMemoryBuffer) : M ref :=
  fun h => let (h', r) := alloc h (read h (mem_ref m)) in (h', inr r).

Definition put (m : ChatMemoryBuffer) (msg : ChatMessage) : M unit :=
  modify (fun h => write h (mem_ref m)
                     (append _ (tokenizer m) (token_limit m) (read h (mem_ref m)) msg)).

End Memory.

(* ================================================================= *)
(** ** The chat loop (notebook cell 11)

<<
for msg in user_inputs:
    chat_history = pipeline_memory.get()
    chat_history_str = "\n".join([str(x) for x in chat_history])
    response = pipeline.run(query_str=msg, chat_history=chat_history,
                            chat_history_str=chat_history_str)
    user_msg = ChatMessage(role="user", content=msg)
    pipeline_memory.put(user_msg)
    print(str(user_msg))
    pipeline_memory.put(response.message)
    print(str(response.message))
    print()
>>
    The prints do not touch the heap and are left out. *)

Module ChatLoop.
Import Py.

Definition str_role (r : MessageRole) : string :=
  match r with User => "user" | Assistant => "assistant" | System => "system" end.

(** [str(ChatMessage)] *)
Definition str_message (m : ChatMessage) : string :=
  str_role (role m) ++ ": " ++ content m.

Fixpoint join (sep : string) (l : list string) : string :=
  match l with
  | [] => ""
  | [x] => x
  | x :: t => x ++ sep ++ join sep t
  end.

Section Loop.
(** [pipeline.run(query_str=..., chat_history=..., chat_history_str=...)] *)
Variable pipeline_run : string -> ref -> string -> M ChatResponse.
Variable pipeline_memory : Memory.ChatMemoryBuffer.

Definition chat_turn (msg : string) : M unit :=
  chat_history <- Memory.get pipeline_memory ;;
  h <- get_heap ;;
  let chat_history_str := join nl (map str_message (read h chat_history)) in
  response <- pipeline_run msg chat_history chat_history_str ;;
  let user_msg := {| role := User; content := msg |} in
  _ <- Memory.put pipeline_memory user_msg ;;
  Memory.put pipeline_memory (message response).

Fixpoint chat_loop (user_inputs : list string) : M unit :=
  match user_inputs with
  | [] => ret tt
  | msg :: rest => _ <- chat_turn msg ;; chat_loop rest
  end.

End Loop.

(** A buffer owning the list object at reference 0, with a budget of
    8000 and the content length as token count. *)
Definition pipeline_memory_8000 : Memory.ChatMemoryBuffer :=
  {| Memory.mem_ref := 0; Memory.token_limit := 8000;
     Memory.tokenizer := fun l =>
       fold_right (fun m n => String.length (content m) + n) 0 l |}.

(** A pipeline reduced to its last stage: the notebook's response
    component, fed with no retrieved nodes. *)
Definition response_pipeline (l : Component.LLM)
    : string -> ref -> string -> M ChatResponse :=
  fun q ch _ =>
    Component._run_component l (Component.notebook_response_component l)
      {| Component.kw_chat_history := ch; Component.kw_nodes := [];
         Component.kw_query_str := q |}.

End ChatLoop.

(* ================================================================= *)
(** ** The pipeline core: registry, link table, validator, executor

    The notebook wires its modules with [QueryPipeline(modules=...)] and
    [pipeline.add_link(...)] and calls [pipeline.run(...)]; the code of
    those lives in the library. Everything in this module is modelled from
    the spec (sections 3, 4.1-4.4). *)

Module Graph.

Definition Value := string.

(** A unit: name, declared keys and its invocation behaviour. *)
Record Unit := {
  unit_name : string;
  required_keys : list string;
  optional_keys : list string;
  output_keys : list string;
  behavior : list (string * Value) -> list (string * Value) }.

(** A link (source, source key or "default", destination, destination key). *)
Record Link := { src : string; src_key : string; dst : string; dst_key : string }.

Record Graph := { units : list Unit; links : list Link }.

Inductive GraphError :=
| DuplicateNameError (name : string)
| UnknownUnitError (name : string)
| DuplicateDestinationError (dest key : string)
| CycleError (cycle : list string)
| UnsatisfiedInputError (unit key : string)
| MissingInputError (unit key : string)
| NotFoundError (name : string).

Definition mem (x : string) (l : list string) : bool := existsb (String.eqb x) l.

Definition names (g : Graph) : list string := map unit_name (units g).

Definition registered (g : Graph) (n : string) : bool := mem n (names g).

Definition empty_graph : Graph := {| units := []; links := [] |}.

(** Modelled from the spec (4.1): [register(unit)]. *)
Definition register (g : Graph) (u : Unit) : GraphError + Graph :=
  if registered g (unit_name u) then inl (DuplicateNameError (unit_name u))
  else inr {| units := units g ++ [u]; links := links g |}.

Definition find_unit (g : Graph) (n : string) : option Unit :=
  find (fun u => String.eqb (unit_name u) n) (units g).

(** Modelled from the spec (4.1): [get(name)]. *)
Definition get (g : Graph) (n : string) : GraphError + Unit :=
  match find_unit g n with Some u => inr u | None => inl (NotFoundError n) end.

Definition has_producer (g : Graph) (d k : string) : bool :=
  existsb (fun l => String.eqb (dst l) d && String.eqb (dst_key l) k) (links g).

(** Modelled from the spec (4.2): [add_link(src, src_key, dst, dst_key)]. *)
Definition add_link (g : Graph) (s sk d dk : string) : GraphError + Graph :=
  if negb (registered g s) then inl (UnknownUnitError s)
  else if negb (registered g d) then inl (UnknownUnitError d)
  else if has_producer g d dk then inl (DuplicateDestinationError d dk)
  else inr {| units := units g;
              links := links g ++ [{| src := s; src_key := sk; dst := d; dst_key := dk |}] |}.

(** Several [add_link] calls in a row, stopping at the first error. *)
Fixpoint add_links (g : Graph) (ls : list (string * string * string * string))
    : GraphError + Graph :=
  match ls with
  | [] => inr g
  | (s, sk, d, dk) :: rest =>
      match add_link g s sk d dk with
      | inl e => inl e
      | inr g' => add_links g' rest
      end
  end.

(** The producers of a unit in the unit-dependency graph. *)
Definition preds (g : Graph) (u : string) : list string :=
  map src (filter (fun l => String.eqb (dst l) u) (links g)).

Definition ready (g : Graph) (placed : list string) (u : string) : bool :=
  negb (mem u placed) && forallb (fun p => mem p placed) (preds g u).

(** The first unit in registration order that is ready. *)
Definition find_ready (g : Graph) (placed : list string) : option string :=
  find (ready g placed) (names g).

Fixpoint kahn (g : Graph) (fuel : nat) (placed : list string) : list string :=
  match fuel with
  | 0 => placed
  | S f => match find_ready g placed with
           | Some u => kahn g f (placed ++ [u])
           | None => placed
           end
  end.

Definition topo_order (g : Graph) : list string := kahn g (List.length (names g)) [].

(** Cycle extraction: from a unit left out of the order, follow producers
    that are also left out until one repeats. *)
Definition blocking_pred (g : Graph) (order : list string) (u : string) : option string :=
  find (fun p => negb (mem p order)) (preds g u).

Fixpoint take_until (p : string) (l : list string) : list string :=
  match l with
  | [] => []
  | x :: t => if String.eqb x p then [x] else x :: take_until p t
  end.

Fixpoint walk (g : Graph) (order : list string) (fuel : nat) (path : list string)
    : list string :=
  match fuel with
  | 0 => path
  | S f =>
      match path with
      | [] => []
      | cur :: _ =>
          match blocking_pred g order cur with
          | None => path
          | Some p => if mem p path then take_until p path
                      else walk g order f (p :: path)
          end
      end
  end.

Definition pending (g : Graph) (order : list string) : list string :=
  filter (fun n => negb (mem n order)) (names g).

Definition find_cycle (g : Graph) (order : list string) : list string :=
  match pending g order with
  | [] => []
  | u :: _ => walk g order (List.length (pending g order)) [u]
  end.

(** Initial inputs: values for (unit, input key) slots. *)
Definition Inputs := list ((string * string) * Value).

Definition covered (g : Graph) (init : Inputs) (u k : string) : bool :=
  has_producer g u k
  || existsb (fun i => String.eqb (fst (fst i)) u && String.eqb (snd (fst i)) k) init.

Definition unsatisfied (g : Graph) (init : Inputs) : list (string * string) :=
  flat_map (fun u => map (pair (unit_name u))
                       (filter (fun k => negb (covered g init (unit_name u) k))
                          (required_keys u)))
    (units g).

(** Modelled from the spec (4.3): [validate(graph, initial_inputs)]:
    (a) cycle detection, then (b) the coverage check, then the order. *)
Definition validate (g : Graph) (init : Inputs) : GraphError + list string :=
  let order := topo_order g in
  if forallb (fun n => mem n order) (names g) then
    match unsatisfied g init with
    | (u, k) :: _ => inl (UnsatisfiedInputError u k)
    | [] => inr order
    end
  else inl (CycleError (find_cycle g order)).

(** The execution context: the outputs stored per unit. *)
Definition Store := string -> option (list (string * Value)).

Definition empty_store : Store := fun _ => None.

Definition upd (s : Store) (u : string) (o : list (string * Value)) : Store :=
  fun x => if String.eqb x u then Some o else s x.

Fixpoint lookup_key (k : string) (kvs : list (string * Value)) : option Value :=
  match kvs with
  | [] => None
  | (k', v) :: t => if String.eqb k k' then Some v else lookup_key k t
  end.

Definition select_output (k : string) (outs : list (string * Value)) : option Value :=
  if String.eqb k "default" then option_map snd (hd_error outs)
  else lookup_key k outs.

(** The resolved input mapping of unit [u]: values along its incoming
    links, then its initial inputs. *)
Definition gather (g : Graph) (init : Inputs) (s : Store) (u : string)
    : list (string * Value) :=
  flat_map (fun l =>
              if String.eqb (dst l) u then
                match s (src l) with
                | Some outs => match select_output (src_key l) outs with
                               | Some v => [(dst_key l, v)]
                               | None => []
                               end
                | None => []
                end
              else [])
    (links g)
  ++ map (fun i => (snd (fst i), snd i))
       (filter (fun i => String.eqb (fst (fst i)) u) init).

Definition missing_required (u : Unit) (ins : list (string * Value)) : option string :=
  find (fun k => negb (existsb (fun kv => String.eqb (fst kv) k) ins)) (required_keys u).

Definition run_unit (g : Graph) (init : Inputs) (s : Store) (n : string)
    : GraphError + Store :=
  match find_unit g n with
  | None => inl (NotFoundError n)
  | Some u =>
      let ins := gather g init s n in
      match missing_required u ins with
      | Some k => inl (MissingInputError n k)
      | None => inr (upd s n (behavior u ins))
      end
  end.

(** Invoking the units along a schedule. *)
Fixpoint exec (g : Graph) (init : Inputs) (order : list string) (s : Store)
    : GraphError + Store :=
  match order with
  | [] => inr s
  | n :: rest => match run_unit g init s n with
                 | inl e => inl e
                 | inr s' => exec g init rest s'
                 end
  end.

(** Modelled from the spec (4.4): [run(graph, initial_inputs)]. *)
Definition run (g : Graph) (init : Inputs) : GraphError + Store :=
  match validate g init with
  | inl e => inl e
  | inr order => exec g init order empty_store
  end.

(** Graph shapes. *)
Definition edge (g : Graph) (a b : string) : Prop :=
  exists l, In l (links g) /\ src l = a /\ dst l = b.

Fixpoint chain (g : Graph) (c : list string) : Prop :=
  match c with
  | a :: ((b :: _) as t) => edge g a b /\ chain g t
  | _ => True
  end.

(** [c0 -> c1 -> ... -> ck -> c0], [k >= 0]. *)
Definition is_cycle (g : Graph) (c : list string) : Prop :=
  c <> [] /\ chain g c /\ edge g (last c "") (hd "" c).

(** What [register] and [add_link] maintain. *)
Definition wf (g : Graph) : Prop :=
  NoDup (names g) /\
  forall l, In l (links g) -> In (src l) (names g) /\ In (dst l) (names g).

(** A schedule in which the source of every link precedes its destination. *)
Definition respects_links (g : Graph) (o : list string) : Prop :=
  forall l, In l (links g) -> forall p q, o = p ++ dst l :: q -> In (src l) p.

(** [u] can be placed after [p]: not yet placed, all producers placed. *)
Definition ready_prop (g : Graph) (p : list string) (u : string) : Prop :=
  ~ In u p /\ forall a, edge g a u -> In a p.

(** Every required input key of every unit has a producing link or an
    initial input. *)
Definition covers (g : Graph) (init : Inputs) : Prop :=
  forall u, In u (units g) -> forall k, In k (required_keys u) ->
    (exists l, In l (links g) /\ dst l = unit_name u /\ dst_key l = k) \/
    (exists v, In ((unit_name u, k), v) init).

(** Index of the first occurrence of [x] in [o]. *)
Fixpoint pos (x : string) (o : list string) : nat :=
  match o with
  | [] => 0
  | y :: t => if String.eqb x y then 0 else S (pos x t)
  end.

(** A schedule of the concurrency-aware mode: every registered unit once,
    each after all of its producers. *)
Definition schedule (g : Graph) (o : list string) : Prop :=
  NoDup o /\ (forall n, In n o <-> In n (names g)) /\ respects_links g o.

(** ** The notebook's pipeline as a graph of this model

    The modules of [QueryPipeline(modules={...})] in dict order, with the
    keys the notebook's links use; an omitted [dest_key] is the
    destination's single input key. Behaviours are stand-ins that tag the
    values they receive. *)

Definition tagged (tag : string) (ins : list (string * Value)) : Value :=
  fold_left (fun acc kv => (acc ++ " " ++ snd kv)%string) ins tag.

Definition mk_unit (n : string) (req outs : list string) : Unit :=
  {| unit_name := n; required_keys := req; optional_keys := [];
     output_keys := outs;
     behavior := fun ins => map (fun o => (o, tagged (n ++ "." ++ o)%string ins)) outs |}.

(** [InputComponent]: passes its inputs through. *)
Definition input_unit : Unit :=
  {| unit_name := "input"; required_keys := []; optional_keys := [];
     output_keys := ["query_str"; "chat_history"; "chat_history_str"];
     behavior := fun ins => ins |}.

Definition notebook_units : list Unit :=
  [input_unit;
   mk_unit "rewrite_template" ["query_str"; "chat_history_str"] ["prompt"];
   mk_unit "llm" ["prompt"] ["output"];
   mk_unit "rewrite_retriever" ["input"] ["nodes"];
   mk_unit "query_retriever" ["input"] ["nodes"];
   mk_unit "join" [] ["output"];
   mk_unit "reranker" ["nodes"; "query_str"] ["nodes"];
   mk_unit "response_component" ["chat_history"; "nodes"; "query_str"] ["response"]].

Fixpoint register_all (g : Graph) (us : list Unit) : GraphError + Graph :=
  match us with
  | [] => inr g
  | u :: rest => match register g u with
                 | inl e => inl e
                 | inr g' => register_all g' rest
                 end
  end.

(** The [pipeline.add_link(...)] calls of the notebook, in order. *)
Definition notebook_links : list (string * string * string * string) :=
  [("input", "query_str", "rewrite_template", "query_str");
   ("input", "chat_history_str", "rewrite_template", "chat_history_str");
   ("rewrite_template", "default", "llm", "prompt");
   ("llm", "default", "rewrite_retriever", "input");
   ("input", "query_str", "query_retriever", "input");
   ("rewrite_retriever", "default", "join", "rewrite_nodes");
   ("query_retriever", "default", "join", "query_nodes");
   ("join", "default", "reranker", "nodes");
   ("input", "query_str", "reranker", "query_str");
   ("reranker", "default", "response_component", "nodes");
   ("input", "query_str", "response_component", "query_str");
   ("input", "chat_history", "response_component", "chat_history")].

Definition registered_notebook_units : Graph :=
  match register_all empty_graph notebook_units with
  | inr g => g | inl _ => empty_graph end.

Definition notebook_graph : Graph :=
  match add_links registered_notebook_units notebook_links with
  | inr g => g | inl _ => empty_graph end.

(** A two-unit graph whose only link is a self-loop on [a]. *)
Definition self_loop_graph : Graph :=
  {| units := [mk_unit "a" ["x"] ["out"]; mk_unit "b" [] ["out"]];
     links := [{| src := "a"; src_key := "out"; dst := "a"; dst_key := "x" |}] |}.

(** [pipeline.run(query_str=..., chat_history=..., chat_history_str=...)]:
    the keyword arguments are the input unit's initial inputs. *)
Definition notebook_inputs (q : string) : Inputs :=
  [(("input", "query_str"), q); (("input", "chat_history"), "");
   (("input", "chat_history_str"), "")].

(** A checker for [respects_links]: every link's source occurs before the
    first occurrence of its destination. *)
Definition respects_links_b (g : Graph) (o : list string) : bool :=
  forallb (fun l => mem (src l) (firstn (pos (dst l) o) o)) (links g).

(** Another schedule of the notebook's pipeline: the query retriever runs
    before the rewrite branch. *)
Definition notebook_schedule_2 : list string :=
  ["input"; "query_retriever"; "rewrite_template"; "llm"; "rewrite_retriever";
   "join"; "reranker"; "response_component"].

End Graph.

(* ================================================================= *)
(** ** The compose descriptor

    The [docker-compose] file shipped with the notebook, as the data it
    declares, and the execution of its health probe: Docker runs a
    [CMD-SHELL] test with [/bin/sh -c], the shell evaluates the [||] list,
    [curl] issues the request and reports an exit status. *)

Module Compose.

Record Healthcheck := {
  test : list string;
  interval : string;
  retries : nat
}.

Record Service := {
  image : string;
  environment : list string;
  ports : list string;
  healthcheck : option Healthcheck
}.

Record ComposeFile := {
  version : string;
  services : list (string * Service)
}.

Definition elasticsearch_healthcheck : Healthcheck := {|
  test := ["CMD-SHELL";
           "curl --silent --fail http://localhost:9200/_cluster/health || exit 1"];
  interval := "10s";
  retries := 60
|}.

Definition elasticsearch : Service := {|
  image := "docker.elastic.co/elasticsearch/elasticsearch:8.13.2";
  environment := ["discovery.type=single-node";
                  "xpack.license.self_generated.type=trial";
                  "xpack.security.enabled=false"];
  ports := ["9200:9200"];
  healthcheck := Some elasticsearch_healthcheck
|}.

Definition compose_file : ComposeFile := {|
  version := "3";
  services := [("elasticsearch", elasticsearch)]
|}.

(** *** Strings *)

Definition space_char : ascii := ascii_of_nat 32.
Definition slash_char : ascii := ascii_of_nat 47.
Definition colon_char : ascii := ascii_of_nat 58.

(** Split at every [c], keeping empty pieces. *)
Fixpoint split_on (c : ascii) (s : string) : list string :=
  match s with
  | EmptyString => [EmptyString]
  | String a t =>
      if Ascii.eqb a c then EmptyString :: split_on c t
      else match split_on c t with
           | [] => [String a EmptyString]
           | w :: ws => String a w :: ws
           end
  end.

(** Split at the first [c]. *)
Fixpoint split_first (c : ascii) (s : string) : string * option string :=
  match s with
  | EmptyString => (EmptyString, None)
  | String a t =>
      if Ascii.eqb a c then (EmptyString, Some t)
      else let (w, r) := split_first c t in (String a w, r)
  end.

(** The shell's field splitting of a command without quotes. *)
Definition words (s : string) : list string :=
  filter (fun w => negb (String.eqb w EmptyString)) (split_on space_char s).

Fixpoint parse_digits (s : string) (acc : nat) : option nat :=
  match s with
  | EmptyString => Some acc
  | String a t =>
      let d := nat_of_ascii a in
      if (Nat.leb 48 d && Nat.leb d 57)%bool then parse_digits t (acc * 10 + (d - 48))
      else None
  end.

Definition parse_nat (s : string) : option nat :=
  match s with EmptyString => None | _ => parse_digits s 0 end.

(** A port entry [HOST:CONTAINER]. *)
Definition port_mapping (p : string) : option (nat * nat) :=
  match split_on colon_char p with
  | [h; c] => match parse_nat h, parse_nat c with
              | Some h', Some c' => Some (h', c')
              | _, _ => None
              end
  | _ => None
  end.

(** *** HTTP and curl *)

Inductive Method := GET | HEAD | POST | Custom (m : string).

Record Request := {
  req_method : Method;
  req_host : string;
  req_port : nat;
  req_path : string
}.

(** The search engine as seen by a client: the HTTP status it answers to a
    request, or [None] when no response arrives (connection refused, reset,
    timeout). *)
Definition Server := Request -> option nat.

(** [http://host[:port][/path]]. *)
Definition parse_url (u : string) : option (string * nat * string) :=
  if String.prefix "http://" u then
    let rest := substring 7 (String.length u - 7) u in
    let (authority, path) := split_first slash_char rest in
    let path := match path with None => "/" | Some p => String slash_char p end in
    match split_first colon_char authority with
    | (host, None) => Some (host, 80, path)
    | (host, Some p) => match parse_nat p with
                        | Some n => Some (host, n, path)
                        | None => None
                        end
    end
  else None.

Record CurlOpts := {
  c_fail : bool;
  c_request : option string;
  c_data : bool;
  c_head : bool;
  c_url : option string
}.

Definition curl_defaults : CurlOpts :=
  {| c_fail := false; c_request := None; c_data := false; c_head := false; c_url := None |}.

Fixpoint curl_opts (args : list string) (o : CurlOpts) : CurlOpts :=
  match args with
  | [] => o
  | a :: t =>
      if (String.eqb a "--fail" || String.eqb a "-f")%bool then
        curl_opts t {| c_fail := true; c_request := c_request o; c_data := c_data o;
                       c_head := c_head o; c_url := c_url o |}
      else if (String.eqb a "--silent" || String.eqb a "-s")%bool then curl_opts t o
      else if (String.eqb a "--request" || String.eqb a "-X")%bool then
        match t with
        | m :: t' => curl_opts t' {| c_fail := c_fail o; c_request := Some m;
                                     c_data := c_data o; c_head := c_head o; c_url := c_url o |}
        | [] => o
        end
      else if (String.eqb a "--data" || String.eqb a "-d")%bool then
        match t with
        | _ :: t' => curl_opts t' {| c_fail := c_fail o; c_request := c_request o;
                                     c_data := true; c_head := c_head o; c_url := c_url o |}
        | [] => o
        end
      else if (String.eqb a "--head" || String.eqb a "-I")%bool then
        curl_opts t {| c_fail := c_fail o; c_request := c_request o; c_data := c_data o;
                       c_head := true; c_url := c_url o |}
      else curl_opts t {| c_fail := c_fail o; c_request := c_request o; c_data := c_data o;
                          c_head := c_head o; c_url := Some a |}
  end.

Definition method_of (m : string) : Method :=
  if String.eqb m "GET" then GET else if String.eqb m "HEAD" then HEAD
  else if String.eqb m "POST" then POST else Custom m.

(** [-X] names the method; otherwise [-I] sends HEAD, [-d] sends POST and
    the default is GET. *)
Definition curl_method (o : CurlOpts) : Method :=
  match c_request o with
  | Some m => method_of m
  | None => if c_head o then HEAD else if c_data o then POST else GET
  end.

(** A status of 400 or more. *)
Definition http_error (st : nat) : bool := Nat.leb 400 st.

(** Exit status and requests sent: 2 without a URL, 3 for a malformed one,
    7 when no response arrives, 22 for a status of 400 or more under
    [--fail], 0 otherwise. *)
Definition curl (server : Server) (args : list string) : nat * list Request :=
  let o := curl_opts args curl_defaults in
  match c_url o with
  | None => (2, [])
  | Some u =>
      match parse_url u with
      | None => (3, [])
      | Some (host, port, path) =>
          let r := {| req_method := curl_method o; req_host := host;
                      req_port := port; req_path := path |} in
          match server r with
          | None => (7, [r])
          | Some st => if (c_fail o && http_error st)%bool then (22, [r]) else (0, [r])
          end
      end
  end.

(** *** The shell *)

(** The pipelines of an [||] list. *)
Fixpoint or_list (ws : list string) : list (list string) :=
  match ws with
  | [] => [[]]
  | w :: t =>
      if String.eqb w "||" then [] :: or_list t
      else match or_list t with
           | [] => [[w]]
           | c :: cs => (w :: c) :: cs
           end
  end.

(** A simple command: its status, the requests it sent, and whether it
    ended the shell. *)
Definition simple_command (server : Server) (c : list string) : nat * list Request * bool :=
  match c with
  | w :: args =>
      if String.eqb w "exit" then
        match args with
        | [n] => match parse_nat n with Some k => (k, [], true) | None => (2, [], true) end
        | _ => (2, [], true)
        end
      else if String.eqb w "curl" then
        let (st, rs) := curl server args in (st, rs, false)
      else (127, [], false)
  | [] => (0, [], false)
  end.

(** [c1 || c2 || ...]: the next pipeline runs only after a non-zero status. *)
Fixpoint run_or_list (server : Server) (cs : list (list string)) : nat * list Request :=
  match cs with
  | [] => (0, [])
  | c :: rest =>
      match simple_command server c with
      | (st, rs, true) => (st, rs)
      | (st, rs, false) =>
          if Nat.eqb st 0 then (0, rs)
          else match rest with
               | [] => (st, rs)
               | _ => let (st', rs') := run_or_list server rest in (st', rs ++ rs')
               end
      end
  end.

Definition sh_c (server : Server) (cmd : string) : nat * list Request :=
  run_or_list server (or_list (words cmd)).

(** *** Docker's health check *)

(** [CMD-SHELL cmd] runs [/bin/sh -c cmd]; [CMD args] runs the command
    directly.  An exit status of 0 is healthy. *)
Definition run_test (server : Server) (hc : Healthcheck) : nat * list Request :=
  match test hc with
  | [k; cmd] =>
      if String.eqb k "CMD-SHELL" then sh_c server cmd
      else if String.eqb k "CMD" then
        let '(st, rs, _) := simple_command server [cmd] in (st, rs)
      else (1, [])
  | k :: args =>
      if String.eqb k "CMD" then
        let '(st, rs, _) := simple_command server args in (st, rs)
      else (1, [])
  | [] => (1, [])
  end.

Definition probe_healthy (server : Server) (hc : Healthcheck) : bool :=
  Nat.eqb (fst (run_test server hc)) 0.

(** The request the descriptor's probe sends. *)
Definition health_request : Request :=
  {| req_method := GET; req_host := "localhost"; req_port := 9200;
     req_path := "/_cluster/health" |}.

End Compose.

(* ================================================================= *)
(** ** The cleanup cell on the document's text (notebook cell 4)

<<
lines = documents[0].text.split("\n")
...
documents[0].text = "\n".join(fixed_lines)
>>
*)

Module PyText.

Definition nl_char : ascii := ascii_of_nat 10.

(** [s.split(sep)] for a one-character [sep]: the pieces between
    separators, empty ones included; [""] splits into [[""]]. *)
Fixpoint split (c : ascii) (s : string) : list string :=
  match s with
  | EmptyString => [EmptyString]
  | String a t =>
      if Ascii.eqb a c then EmptyString :: split c t
      else match split c t with
           | [] => [String a EmptyString]
           | w :: ws => String a w :: ws
           end
  end.

(** The same [str.split(sep)] and [sep.join(...)] on the code points of a
    [str], as the cleanup cell applies them to the document's text. *)
Fixpoint split_str (c : N) (s : PyStr.pystr) : list PyStr.pystr :=
  match s with
  | [] => [[]]
  | a :: t =>
      if N.eqb a c then [] :: split_str c t
      else match split_str c t with
           | [] => [[a]]
           | w :: ws => (a :: w) :: ws
           end
  end.

Fixpoint join_str (sep : PyStr.pystr) (l : list PyStr.pystr) : PyStr.pystr :=
  match l with
  | [] => []
  | [x] => x
  | x :: t => x ++ sep ++ join_str sep t
  end.

Definition nl_code : N := 10.

(** The whole cell: split the text into lines, run the loop, join the
    kept lines with ["\n"]; [None] is the [IndexError] of [lines[0]]. *)
Definition clean_text (text : PyStr.pystr) : option PyStr.pystr :=
  match Cleanup.fixed_lines (split_str nl_code text) with
  | Some fl => Some (join_str [nl_code] fl)
  | None => None
  end.

End PyText.

(* ================================================================= *)
(** * Proofs *)

Module CleanupFacts.
Import PyStr Cleanup.

Lemma no_two_blank_head (a b : pystr) (l : list pystr) :
  strip_empty a = strip_empty b ->
  no_two_blank (a :: l) -> no_two_blank (b :: l).
Proof.
  intros Hab H. destruct l as [|y t]; simpl in *; auto.
  rewrite <- Hab. exact H.
Qed.

Lemma fix_loop_no_two_blank (prev : pystr) (rest : list pystr) :
  no_two_blank (prev :: fix_loop prev rest).
Proof.
  revert prev. induction rest as [|x r IH]; intro prev; cbn [fix_loop]; [exact I |].
  destruct (strip_empty x) eqn:Ex, (strip_empty prev) eqn:Ep; cbn [andb].
  1: apply no_two_blank_head with x; [congruence | apply IH].
  all: cbn [no_two_blank]; split; [intros [H1 H2]; congruence | exact (IH x)].
Qed.

Lemma fix_loop_subseq (prev : pystr) (rest : list pystr) :
  subseq (fix_loop prev rest) rest.
Proof.
  revert prev. induction rest as [|x r IH]; intro prev; simpl.
  - constructor.
  - destruct (strip_empty x && strip_empty prev).
    + apply subseq_skip, IH.
    + apply subseq_keep, IH.
Qed.

Lemma fix_loop_non_blank (prev : pystr) (rest : list pystr) :
  filter non_blank (fix_loop prev rest) = filter non_blank rest.
Proof.
  revert prev. induction rest as [|x r IH]; intro prev; cbn [fix_loop]; [reflexivity |].
  destruct (strip_empty x && strip_empty prev) eqn:E.
  - apply andb_true_iff in E as [Ex _].
    rewrite IH. cbn [filter]. unfold non_blank. rewrite Ex. reflexivity.
  - cbn [filter]. rewrite IH. reflexivity.
Qed.

End CleanupFacts.

(** C9: for every non-empty list of lines, the cleanup loop returns a
    subsequence of the input that starts with the first line, keeps every
    line whose stripped content is non-empty, in order (and drops only
    whitespace-only lines), and has no two consecutive whitespace-only
    lines. *)
Theorem fixed_lines_spec (lines : list PyStr.pystr) :
  lines <> [] ->
  exists out, Cleanup.fixed_lines lines = Some out /\
    hd_error out = hd_error lines /\
    Cleanup.subseq out lines /\
    filter Cleanup.non_blank out = filter Cleanup.non_blank lines /\
    Cleanup.no_two_blank out.
Proof.
  destruct lines as [|l0 rest]; [congruence | intros _].
  exists (l0 :: Cleanup.fix_loop l0 rest). simpl. repeat split; auto.
  - apply Cleanup.subseq_keep, CleanupFacts.fix_loop_subseq.
  - destruct (Cleanup.non_blank l0); rewrite CleanupFacts.fix_loop_non_blank;
      reflexivity.
  - apply CleanupFacts.fix_loop_no_two_blank.
Qed.

Example fixed_lines_spec_witness :
  let lines := [PyStr.of_string "a"; []; [0xA0%N]; PyStr.of_string " "; [0x3000%N; 0x9%N];
                PyStr.of_string "b"] in
  lines <> [] /\
  exists out, Cleanup.fixed_lines lines = Some out /\
    hd_error out = hd_error lines /\
    Cleanup.subseq out lines /\
    filter Cleanup.non_blank out = filter Cleanup.non_blank lines /\
    Cleanup.no_two_blank out.
Proof.
  intro lines. split; [discriminate |].
  apply (fixed_lines_spec lines). discriminate.
Defined.

(** Lines holding only U+00A0 or U+3000 are blank lines for the loop, as
    for [str.strip()]: the loop turns the lines
    ["a", "", "\xa0", "\u3000", "b"] into ["a", "", "b"]. *)
Example fixed_lines_unicode_blank :
  Cleanup.fixed_lines [PyStr.of_string "a"; []; [0xA0%N]; [0x3000%N]; PyStr.of_string "b"]
  = Some [PyStr.of_string "a"; []; PyStr.of_string "b"].
Proof. vm_compute. reflexivity. Qed.

Module HeapFacts.
Import Py.

Lemma read_write_same (h : Heap) (r : ref) (l : list ChatMessage) :
  read (write h r l) r = l.
Proof. unfold read, write; simpl. now rewrite Nat.eqb_refl. Qed.

Lemma read_write_other (h : Heap) (r r0 : ref) (l : list ChatMessage) :
  r0 <> r -> read (write h r l) r0 = read h r0.
Proof.
  intro H. unfold read, write; simpl.
  destruct (Nat.eqb r0 r) eqn:E; [apply Nat.eqb_eq in E; congruence | reflexivity].
Qed.

Lemma next_write (h : Heap) (r : ref) (l : list ChatMessage) :
  next (write h r l) = next h.
Proof. reflexivity. Qed.

Lemma read_alloc_new (h : Heap) (l : list ChatMessage) :
  read (fst (alloc h l)) (snd (alloc h l)) = l.
Proof. unfold read, alloc; simpl. now rewrite Nat.eqb_refl. Qed.

Lemma read_alloc_at (h : Heap) (l : list ChatMessage) (n : ref) :
  n = next h -> read (fst (alloc h l)) n = l.
Proof. intros ->. unfold read, alloc; simpl. now rewrite Nat.eqb_refl. Qed.

Lemma read_alloc_old (h : Heap) (l : list ChatMessage) (r0 : ref) :
  r0 < next h -> read (fst (alloc h l)) r0 = read h r0.
Proof.
  intro H. unfold read, alloc; simpl.
  destruct (Nat.eqb r0 (next h)) eqn:E; [apply Nat.eqb_eq in E; lia | reflexivity].
Qed.

End HeapFacts.

Module ComponentFacts.
Import Py Component HeapFacts.

Ltac case_chat :=
  cbv [bind get_heap lift ret]; cbn [fst snd];
  try (match goal with
       | |- context [chat ?g ?l] => destruct (chat g l); cbn [fst snd]
       end).

Section Formatting.
Context {F : StrFormat}.

(** The heap after [_prepare_context], when the prompt formats. *)
Lemma prepare_context_heap (self : ResponseWithChatHistory) (h : Heap) (r : ref)
    (nodes : list NodeWithScore) (q s : string) :
  str_format (context_prompt self)
    [("node_context", node_context_from 0 nodes); ("query_str", q)] = inr s ->
  let h1 := write h r (read h r ++ [{| role := User; content := s |}]) in
  _prepare_context self r nodes q h =
    match system_prompt self with
    | Some sp =>
        (fst (alloc h1 ({| role := System; content := sp |} :: read h1 r)),
         inr (next h1))
    | None => (h1, inr r)
    end.
Proof.
  intros Hf h1. unfold _prepare_context, user_message_for, bind, lift.
  rewrite Hf. unfold list_append, modify.
  destruct (system_prompt self) as [sp|]; reflexivity.
Qed.

(** [_prepare_context] raises before touching the heap when the prompt
    does not format. *)
Lemma prepare_context_format_error (self : ResponseWithChatHistory) (h : Heap)
    (r : ref) (nodes : list NodeWithScore) (q : string) (e : PyError) :
  str_format (context_prompt self)
    [("node_context", node_context_from 0 nodes); ("query_str", q)] = inl e ->
  _prepare_context self r nodes q h = (h, inl e).
Proof.
  intro Hf. unfold _prepare_context, user_message_for, bind, lift.
  now rewrite Hf.
Qed.

(** Only the caller's list changes; every other existing list is kept. *)
Lemma run_component_frame (g : LLM) (self : ResponseWithChatHistory)
    (kw : RunKwargs) (h : Heap) (r0 : ref) :
  r0 < next h -> r0 <> kw_chat_history kw ->
  read (fst (_run_component g self kw h)) r0 = read h r0.
Proof.
  intros Hlt Hne. unfold _run_component.
  destruct (str_format (context_prompt self)
              [("node_context", node_context_from 0 (kw_nodes kw));
               ("query_str", kw_query_str kw)]) as [e|s] eqn:Hf.
  - unfold bind at 1. rewrite (prepare_context_format_error _ _ _ _ _ _ Hf).
    reflexivity.
  - unfold bind at 1. rewrite (prepare_context_heap _ _ _ _ _ _ Hf).
    destruct (system_prompt self) as [sp|].
    + case_chat;
        rewrite read_alloc_old by (rewrite next_write; exact Hlt);
        apply read_write_other; exact Hne.
    + case_chat; apply read_write_other; exact Hne.
Qed.

End Formatting.

(** [_run_component] ignores the component's own [llm] field. *)
Lemma run_component_independent_of_field (g a b : LLM) (sp : option string)
    (cp : string) (kw : RunKwargs) (h : Heap) :
  _run_component g {| llm := a; system_prompt := sp; context_prompt := cp |} kw h
  = _run_component g {| llm := b; system_prompt := sp; context_prompt := cp |} kw h.
Proof. reflexivity. Qed.

End ComponentFacts.

(** C10: in every invocation of [_prepare_context] that returns (the
    [context_prompt.format(...)] call is the only one that can raise; the
    theorem holds for any behaviour [F] of that builtin, CPython's
    included), exactly one user message, the prompt as formatted, is
    appended to the caller's [chat_history] list object in place; no other
    existing list changes; with a system prompt the returned list is a new
    list [[system] + chat_history], otherwise it is the caller's list
    itself; and after [_run_component] the caller's list still carries
    the appended message, whatever the LLM call does. *)
Theorem prepare_context_mutates_caller_list {F : Py.StrFormat}
    (self : Component.ResponseWithChatHistory)
    (h : Py.Heap) (r : Py.ref) (nodes : list Py.NodeWithScore) (q s : string)
    (g : Component.LLM) :
  r < Py.next h ->
  Py.str_format (Component.context_prompt self)
    [("node_context", Component.node_context_from 0 nodes); ("query_str", q)] = inr s ->
  let user_message := {| Py.role := Py.User; Py.content := s |} in
  let after := Component._prepare_context (F := F) self r nodes q h in
  Py.read (fst after) r = Py.read h r ++ [user_message] /\
  (forall r0, r0 <> r -> r0 < Py.next h -> Py.read (fst after) r0 = Py.read h r0) /\
  match Component.system_prompt self with
  | None => snd after = inr r
  | Some sp => exists r', snd after = inr r' /\ r' <> r /\
      Py.read (fst after) r' = {| Py.role := Py.System; Py.content := sp |}
                               :: Py.read (fst after) r
  end /\
  Py.read (fst (Component._run_component (F := F) g self
                  {| Component.kw_chat_history := r; Component.kw_nodes := nodes;
                     Component.kw_query_str := q |} h)) r
    = Py.read h r ++ [user_message].
Proof.
  intros Hlt Hf um after. subst after um.
  rewrite (ComponentFacts.prepare_context_heap _ _ _ _ _ _ Hf).
  assert (Hrun : Py.read (fst (Component._run_component (F := F) g self
                  {| Component.kw_chat_history := r; Component.kw_nodes := nodes;
                     Component.kw_query_str := q |} h)) r
                 = Py.read h r ++ [{| Py.role := Py.User; Py.content := s |}]).
  { unfold Component._run_component, Py.bind at 1.
    cbn [Component.kw_chat_history Component.kw_nodes Component.kw_query_str].
    rewrite (ComponentFacts.prepare_context_heap _ _ _ _ _ _ Hf).
    destruct (Component.system_prompt self) as [sp|].
    - ComponentFacts.case_chat;
        rewrite HeapFacts.read_alloc_old by (rewrite HeapFacts.next_write; exact Hlt);
        apply HeapFacts.read_write_same.
    - ComponentFacts.case_chat; apply HeapFacts.read_write_same. }
  destruct (Component.system_prompt self) as [sp|]; cbn [fst snd].
  - rewrite HeapFacts.read_alloc_old by (rewrite HeapFacts.next_write; exact Hlt).
    rewrite HeapFacts.read_write_same.
    split; [reflexivity |]. split.
    + intros r0 Hne Hlt0.
      rewrite HeapFacts.read_alloc_old by (rewrite HeapFacts.next_write; exact Hlt0).
      apply HeapFacts.read_write_other; exact Hne.
    + split; [| exact Hrun]. exists (Py.next h).
      split; [reflexivity |]. split; [lia |].
      rewrite HeapFacts.read_alloc_at by reflexivity.
      rewrite ?HeapFacts.read_write_same; reflexivity.
  - rewrite HeapFacts.read_write_same. split; [reflexivity |]. split.
    + intros r0 Hne _. apply HeapFacts.read_write_other; exact Hne.
    + split; [reflexivity | exact Hrun].
Qed.

(** The witness uses CPython's [str.format] on a prompt with a format
    spec and a [!r] conversion. *)
Example prepare_context_mutates_caller_list_witness :
  let self := {| Component.llm := Component.const_llm "ok";
                 Component.system_prompt := Some Component.notebook_system_prompt;
                 Component.context_prompt :=
                   ("Context: {node_context:.40}" ++ Py.nl ++ "Question: {query_str!r}")%string |} in
  let nodes := [{| Py.node_llm_content := "Claude-3 supports tools."; Py.node_score := 1 |}] in
  0 < Py.next Component.heap_one /\
  Py.str_format (Component.context_prompt self)
    [("node_context", Component.node_context_from 0 nodes);
     ("query_str", "What models support it?")]
    = inr ("Context: Context Chunk 0:" ++ Py.nl ++ "Claude-3 supports tools" ++ Py.nl ++
           "Question: 'What models support it?'")%string /\
  Py.read (fst (Component._prepare_context self 0 nodes "What models support it?"
                  Component.heap_one)) 0
    = Py.read Component.heap_one 0 ++
        [{| Py.role := Py.User;
            Py.content := ("Context: Context Chunk 0:" ++ Py.nl ++ "Claude-3 supports tools" ++ Py.nl ++
                          "Question: 'What models support it?'")%string |}].
Proof.
  intros self nodes.
  assert (Hf : Py.str_format (Component.context_prompt self)
    [("node_context", Component.node_context_from 0 nodes);
     ("query_str", "What models support it?")]
    = inr ("Context: Context Chunk 0:" ++ Py.nl ++ "Claude-3 supports tools" ++ Py.nl ++
           "Question: 'What models support it?'")%string) by (vm_compute; reflexivity).
  split; [simpl; lia | split; [exact Hf |]].
  exact (proj1 (prepare_context_mutates_caller_list self Component.heap_one 0 nodes
           "What models support it?" _ (Component.const_llm "ok") ltac:(simpl; lia) Hf)).
Defined.

(** C3 (the component does not call the client it was constructed with):
    the notebook's [ResponseWithChatHistory] built with a client answering
    "self" answers with the module-level [llm] (here one answering
    "notebook"), because [_run_component] and [_arun_component] call
    [llm.chat] / [llm.achat], not [self.llm]. *)
Theorem run_component_calls_module_llm :
  let self := Component.notebook_response_component (Component.const_llm "self") in
  let kw := {| Component.kw_chat_history := 0; Component.kw_nodes := [];
               Component.kw_query_str := "What models support it?" |} in
  snd (Component._run_component (Component.const_llm "notebook") self kw
         Component.heap_one)
    = inr {| Py.message := {| Py.role := Py.Assistant; Py.content := "notebook" |} |} /\
  snd (Component._arun_component (Component.const_llm "notebook") self kw
         Component.heap_one)
    = inr {| Py.message := {| Py.role := Py.Assistant; Py.content := "notebook" |} |} /\
  snd (Component.response_via_self_llm self kw Component.heap_one)
    = inr {| Py.message := {| Py.role := Py.Assistant; Py.content := "self" |} |}.
Proof. vm_compute. repeat split. Qed.

Module MemoryFacts.
Import Memory.
Local Open Scope list_scope.

Section Eviction.
Variable Entry : Type.
Variable size : list Entry -> nat.
Variable budget : nat.

Lemma evict_head_spec (l : list Entry) :
  l <> [] ->
  evict_head Entry size budget l <> [] /\
  (exists evicted : list Entry, l = evicted ++ evict_head Entry size budget l) /\
  (size (evict_head Entry size budget l) <= budget \/ List.length (evict_head Entry size budget l) = 1).
Proof.
  induction l as [|x t IH]; intro Hne; [congruence |].
  destruct t as [|y t'].
  - simpl. split; [discriminate |]. split; [exists []; reflexivity | right; reflexivity].
  - cbn [evict_head]. destruct (Nat.ltb budget (size (x :: y :: t'))) eqn:E.
    + destruct (IH ltac:(discriminate)) as (Hr & [pre Hpre] & Hb).
      split; [exact Hr |]. split; [| exact Hb].
      exists (x :: pre). simpl. f_equal. exact Hpre.
    + apply Nat.ltb_ge in E.
      split; [discriminate |]. split; [exists []; reflexivity | left; exact E].
Qed.

Lemma suffix_of_snoc (l pre r : list Entry) (e : Entry) :
  l ++ [e] = pre ++ r -> r <> [] -> exists kept : list Entry, r = kept ++ [e].
Proof.
  intros Heq Hne. destruct (exists_last Hne) as (kept & z & ->).
  exists kept. rewrite app_assoc in Heq. apply app_inj_tail in Heq.
  destruct Heq as [_ ->]. reflexivity.
Qed.

End Eviction.
End MemoryFacts.

(** C1 (modelled from the spec): for a memory buffer with budget B and any
    buffer state [buf], after [append buf e] the total size by the sizing
    function is at most B, or the buffer is exactly [[e]] (the
    most-recent entry alone, kept even when it exceeds B); the entry just
    appended is always the last one kept; and eviction only removes a
    prefix, i.e. entries at the head. Since [buf] is arbitrary this holds
    after each append of every sequence of appends. *)
Theorem append_within_budget (Entry : Type) (size : list Entry -> nat)
    (budget : nat) (buf : list Entry) (e : Entry) :
  let nb := Memory.append Entry size budget buf e in
  (size nb <= budget \/ nb = [e]) /\
  (exists kept : list Entry, nb = kept ++ [e]) /\
  (exists evicted : list Entry, buf ++ [e] = evicted ++ nb).
Proof.
  intro nb.
  assert (Hne : buf ++ [e] <> []) by (destruct buf; discriminate).
  destruct (MemoryFacts.evict_head_spec Entry size budget _ Hne)
    as (Hr & [pre Hpre] & Hb).
  unfold nb, Memory.append.
  destruct (MemoryFacts.suffix_of_snoc Entry _ _ _ _ Hpre Hr) as [kept Hk].
  split; [| split; [exists kept; exact Hk | exists pre; exact Hpre]].
  destruct Hb as [Hb | Hb]; [left; exact Hb | right].
  rewrite Hk in Hb |- *. rewrite length_app in Hb. simpl in Hb.
  destruct kept; [reflexivity | simpl in Hb; lia].
Qed.

(** The spec's scenario: budget of two entries, appending m1, m2, m3. *)
Example append_three_budget_two :
  Memory.append nat (@List.length nat) 2
    (Memory.append nat (@List.length nat) 2 (Memory.append nat (@List.length nat) 2 [] 1) 2) 3
  = [2; 3].
Proof. reflexivity. Qed.

Module ChatLoopFacts.
Import Py HeapFacts.

Lemma get_spec (m : Memory.ChatMemoryBuffer) (h : Heap) :
  Memory.get m h = (fst (alloc h (read h (Memory.mem_ref m))), inr (next h)).
Proof. reflexivity. Qed.

End ChatLoopFacts.

(** C2: in the chat loop, when [pipeline.run] raises [e] on a turn, the
    loop stops with that same error [e] and the memory buffer's list holds
    exactly what it held before the turn (nothing of the turn appended),
    even though the pipeline may mutate the [chat_history] snapshot it was
    given; when the run succeeds, the buffer gets the user message and then
    the assistant's [response.message], and the loop continues. The
    pipeline is any computation that, among the lists existing before it
    runs, mutates at most the [chat_history] list passed to it (it may
    allocate new ones). *)
Theorem chat_loop_error_leaves_memory
    (pipeline_run : string -> Py.ref -> string -> Py.M Py.ChatResponse)
    (Hframe : forall q ch chs h r, r < Py.next h -> r <> ch ->
       Py.read (fst (pipeline_run q ch chs h)) r = Py.read h r)
    (mem : Memory.ChatMemoryBuffer) (h : Py.Heap) (msg : string)
    (rest : list string) :
  Memory.mem_ref mem < Py.next h ->
  let h1 := fst (Py.alloc h (Py.read h (Memory.mem_ref mem))) in
  let ch := Py.next h in
  let chs := ChatLoop.join Py.nl (map ChatLoop.str_message (Py.read h1 ch)) in
  match pipeline_run msg ch chs h1 with
  | (h2, inl e) =>
      ChatLoop.chat_loop pipeline_run mem (msg :: rest) h = (h2, inl e) /\
      Py.read h2 (Memory.mem_ref mem) = Py.read h (Memory.mem_ref mem)
  | (h2, inr response) =>
      let tok := Memory.tokenizer mem in
      let lim := Memory.token_limit mem in
      let h3 := fst (ChatLoop.chat_turn pipeline_run mem msg h) in
      Py.read h3 (Memory.mem_ref mem)
        = Memory.append _ tok lim
            (Memory.append _ tok lim (Py.read h (Memory.mem_ref mem))
               {| Py.role := Py.User; Py.content := msg |})
            (Py.message response) /\
      ChatLoop.chat_loop pipeline_run mem (msg :: rest) h
        = ChatLoop.chat_loop pipeline_run mem rest h3
  end.
Proof.
  intros Hmem h1 ch chs.
  assert (Hturn : ChatLoop.chat_turn pipeline_run mem msg h
            = Py.bind (pipeline_run msg ch chs)
                (fun response =>
                   Py.bind (Memory.put mem {| Py.role := Py.User; Py.content := msg |})
                     (fun _ => Memory.put mem (Py.message response))) h1)
    by reflexivity.
  assert (Hh1 : Py.read h1 (Memory.mem_ref mem) = Py.read h (Memory.mem_ref mem))
    by (apply HeapFacts.read_alloc_old; exact Hmem).
  assert (Hlt : Memory.mem_ref mem < Py.next h1) by (simpl; lia).
  assert (Hne : Memory.mem_ref mem <> ch) by (unfold ch; lia).
  pose proof (Hframe msg ch chs h1 (Memory.mem_ref mem) Hlt Hne) as Hf.
  destruct (pipeline_run msg ch chs h1) as [h2 [e | response]] eqn:Hrun.
  - cbn [fst] in Hf. split.
    + cbn [ChatLoop.chat_loop]. unfold Py.bind at 1. rewrite Hturn.
      unfold Py.bind at 1. rewrite Hrun. reflexivity.
    + rewrite Hf, Hh1. reflexivity.
  - cbn [fst] in Hf.
    assert (Hok : ChatLoop.chat_turn pipeline_run mem msg h
              = (fst (Py.bind (Memory.put mem {| Py.role := Py.User; Py.content := msg |})
                       (fun _ => Memory.put mem (Py.message response)) h2), inr tt)).
    { rewrite Hturn. unfold Py.bind at 1. rewrite Hrun. reflexivity. }
    split.
    + rewrite Hok. cbv [Py.bind Memory.put Py.modify]. cbn [fst].
      rewrite HeapFacts.read_write_same, HeapFacts.read_write_same, Hf, Hh1.
      reflexivity.
    + cbn [ChatLoop.chat_loop]. unfold Py.bind at 1. rewrite Hok. reflexivity.
Qed.

Example chat_loop_error_leaves_memory_witness :
  (forall q ch chs h r, r < Py.next h -> r <> ch ->
     Py.read (fst (ChatLoop.response_pipeline Component.failing_llm q ch chs h)) r
       = Py.read h r) /\
  Memory.mem_ref ChatLoop.pipeline_memory_8000 < Py.next Component.heap_one /\
  let mem := ChatLoop.pipeline_memory_8000 in
  let h := Component.heap_one in
  let h1 := fst (Py.alloc h (Py.read h (Memory.mem_ref mem))) in
  let ch := Py.next h in
  let chs := ChatLoop.join Py.nl (map ChatLoop.str_message (Py.read h1 ch)) in
  match ChatLoop.response_pipeline Component.failing_llm "What models support it?" ch chs h1 with
  | (h2, inl e) =>
      ChatLoop.chat_loop (ChatLoop.response_pipeline Component.failing_llm) mem
        ["What models support it?"] h = (h2, inl e) /\
      Py.read h2 (Memory.mem_ref mem) = Py.read h (Memory.mem_ref mem)
  | (h2, inr response) =>
      let tok := Memory.tokenizer mem in
      let lim := Memory.token_limit mem in
      let h3 := fst (ChatLoop.chat_turn (ChatLoop.response_pipeline Component.failing_llm)
                       mem "What models support it?" h) in
      Py.read h3 (Memory.mem_ref mem)
        = Memory.append _ tok lim
            (Memory.append _ tok lim (Py.read h (Memory.mem_ref mem))
               {| Py.role := Py.User; Py.content := "What models support it?" |})
            (Py.message response) /\
      ChatLoop.chat_loop (ChatLoop.response_pipeline Component.failing_llm) mem
        ["What models support it?"] h
        = ChatLoop.chat_loop (ChatLoop.response_pipeline Component.failing_llm) mem [] h3
  end.
Proof.
  assert (HF : forall q ch chs h r, r < Py.next h -> r <> ch ->
     Py.read (fst (ChatLoop.response_pipeline Component.failing_llm q ch chs h)) r
       = Py.read h r)
    by (intros q ch chs h r Hlt Hne; apply ComponentFacts.run_component_frame;
        [exact Hlt | exact Hne]).
  split; [exact HF | split; [simpl; lia |]].
  exact (chat_loop_error_leaves_memory _ HF ChatLoop.pipeline_memory_8000
           Component.heap_one "What models support it?" [] ltac:(simpl; lia)).
Defined.

(** The failing turn, evaluated: the error is the client's, the
    snapshot list (reference 1) received the user message, the memory list
    (reference 0) did not change. *)
Example failed_turn_evaluated :
  let r := ChatLoop.chat_loop (ChatLoop.response_pipeline Component.failing_llm)
             ChatLoop.pipeline_memory_8000 ["What models support it?"]
             Component.heap_one in
  snd r = inl (Py.LLMError "rate limited") /\
  Py.read (fst r) 0 = Py.read Component.heap_one 0 /\
  List.length (Py.read (fst r) 1) = 2.
Proof. vm_compute. repeat split. Qed.

Module GraphFacts.
Import Graph.

Lemma mem_spec (x : string) (l : list string) : mem x l = true <-> In x l.
Proof.
  unfold mem. rewrite existsb_exists. split.
  - intros (y & Hy & E). apply String.eqb_eq in E. subst. exact Hy.
  - intro H. exists x. split; [exact H | apply String.eqb_refl].
Qed.

Lemma mem_false (x : string) (l : list string) : mem x l = false <-> ~ In x l.
Proof.
  rewrite <- mem_spec. destruct (mem x l); split; congruence || (intros; discriminate)
    || tauto.
Qed.

Lemma registered_spec (g : Graph) (n : string) :
  registered g n = true <-> In n (names g).
Proof. apply mem_spec. Qed.

Lemma has_producer_spec (g : Graph) (d k : string) :
  has_producer g d k = true <-> exists l, In l (links g) /\ dst l = d /\ dst_key l = k.
Proof.
  unfold has_producer. rewrite existsb_exists. split.
  - intros (l & Hl & E). apply andb_true_iff in E as [E1 E2].
    apply String.eqb_eq in E1, E2. eauto.
  - intros (l & Hl & <- & <-). exists l. split; [exact Hl |].
    now rewrite !String.eqb_refl.
Qed.

Lemma add_links_fan_in (g : Graph) (d : string)
    (ins : list (string * string * string)) :
  In d (names g) ->
  Forall (fun x => In (fst (fst x)) (names g)) ins ->
  NoDup (map snd ins) ->
  (forall x, In x ins -> ~ exists l, In l (links g) /\ dst l = d /\ dst_key l = snd x) ->
  add_links g (map (fun x => (fst (fst x), snd (fst x), d, snd x)) ins)
  = inr {| units := units g;
           links := links g ++ map (fun x => {| src := fst (fst x); src_key := snd (fst x);
                                                dst := d; dst_key := snd x |}) ins |}.
Proof.
  revert g. induction ins as [|[[s sk] dk] rest IH]; intros g Hd Hsrc Hnd Hfree.
  - simpl. rewrite app_nil_r. destruct g; reflexivity.
  - inversion Hsrc as [|? ? Hs Hrest]; subst. inversion Hnd as [|? ? Hnin Hnd']; subst.
    simpl in Hs. cbn [map add_links fst snd].
    unfold add_link.
    replace (registered g s) with true by (symmetry; apply registered_spec; exact Hs).
    replace (registered g d) with true by (symmetry; apply registered_spec; exact Hd).
    replace (has_producer g d dk) with false.
    2: { symmetry. destruct (has_producer g d dk) eqn:E; [| reflexivity].
         apply has_producer_spec in E. exfalso. apply (Hfree (s, sk, dk)); [left |]; auto. }
    cbn [negb].
    rewrite IH; [ | exact Hd | exact Hrest | exact Hnd' | ].
    + simpl. rewrite <- app_assoc. reflexivity.
    + intros x Hx (l & Hl & E1 & E2). simpl in Hl. apply in_app_or in Hl as [Hl | Hl].
      * apply (Hfree x); [right; exact Hx | eauto].
      * destruct Hl as [<- | []]. simpl in E2. subst dk.
        apply Hnin. apply in_map. exact Hx.
Qed.

End GraphFacts.

(** C4 (modelled from the spec): [add_link(src, src_key, dst, dst_key)]
    fails with [UnknownUnitError] naming an unregistered endpoint when
    either is unregistered; with [DuplicateDestinationError] when both are
    registered and [(dst, dst_key)] already has a producer; otherwise it
    records the link; and a fan-in of links from registered sources into
    one registered destination succeeds when the destination keys are
    distinct and still free. *)
Theorem add_link_contract (g : Graph.Graph) (s sk d dk : string) :
  (~ In s (Graph.names g) ->
     Graph.add_link g s sk d dk = inl (Graph.UnknownUnitError s)) /\
  (In s (Graph.names g) -> ~ In d (Graph.names g) ->
     Graph.add_link g s sk d dk = inl (Graph.UnknownUnitError d)) /\
  (In s (Graph.names g) -> In d (Graph.names g) ->
   (exists l, In l (Graph.links g) /\ Graph.dst l = d /\ Graph.dst_key l = dk) ->
     Graph.add_link g s sk d dk = inl (Graph.DuplicateDestinationError d dk)) /\
  (In s (Graph.names g) -> In d (Graph.names g) ->
   ~ (exists l, In l (Graph.links g) /\ Graph.dst l = d /\ Graph.dst_key l = dk) ->
     Graph.add_link g s sk d dk
     = inr {| Graph.units := Graph.units g;
              Graph.links := Graph.links g ++
                [{| Graph.src := s; Graph.src_key := sk; Graph.dst := d;
                    Graph.dst_key := dk |}] |}) /\
  (forall ins : list (string * string * string),
   In d (Graph.names g) ->
   Forall (fun x => In (fst (fst x)) (Graph.names g)) ins ->
   NoDup (map snd ins) ->
   (forall x, In x ins ->
      ~ exists l, In l (Graph.links g) /\ Graph.dst l = d /\ Graph.dst_key l = snd x) ->
   exists g', Graph.add_links g (map (fun x => (fst (fst x), snd (fst x), d, snd x)) ins)
              = inr g' /\ Graph.units g' = Graph.units g /\
              Graph.links g' = Graph.links g ++
                map (fun x => {| Graph.src := fst (fst x); Graph.src_key := snd (fst x);
                                 Graph.dst := d; Graph.dst_key := snd x |}) ins).
Proof.
  unfold Graph.add_link.
  split; [| split; [| split; [| split]]].
  - intro H. apply GraphFacts.mem_false in H. unfold Graph.registered. now rewrite H.
  - intros H1 H2. apply GraphFacts.mem_false in H2. apply GraphFacts.mem_spec in H1.
    unfold Graph.registered. now rewrite H1, H2.
  - intros H1 H2 H3. apply GraphFacts.mem_spec in H1, H2.
    apply GraphFacts.has_producer_spec in H3.
    unfold Graph.registered. now rewrite H1, H2, H3.
  - intros H1 H2 H3. apply GraphFacts.mem_spec in H1, H2.
    destruct (Graph.has_producer g d dk) eqn:E.
    + apply GraphFacts.has_producer_spec in E. contradiction.
    + unfold Graph.registered. now rewrite H1, H2.
  - intros ins Hd Hs Hnd Hfree.
    eexists. split; [apply GraphFacts.add_links_fan_in; eauto | split; reflexivity].
Qed.

Module ValidateFacts.
Import Graph GraphFacts.

Lemma find_split {A} (f : A -> bool) (l : list A) (u : A) :
  find f l = Some u ->
  exists r1 r2, l = r1 ++ u :: r2 /\ f u = true /\ forall v, In v r1 -> f v = false.
Proof.
  induction l as [|x t IH]; simpl; [discriminate |].
  destruct (f x) eqn:E.
  - intros [= <-]. exists [], t. split; [reflexivity | split; [exact E | contradiction]].
  - intro H. destruct (IH H) as (r1 & r2 & -> & Hu & Hv).
    exists (x :: r1), r2. split; [reflexivity | split; [exact Hu |]].
    intros v [<- | Hv']; [exact E | apply Hv; exact Hv'].
Qed.

Lemma snoc_split {A} (p q l : list A) (u v : A) :
  p ++ u :: q = l ++ [v] ->
  (q = [] /\ p = l /\ u = v) \/ (exists q', q = q' ++ [v] /\ l = p ++ u :: q').
Proof.
  destruct q as [|w q] using rev_ind.
  - intro H. apply app_inj_tail in H. left. tauto.
  - intro H. right. exists q. rewrite app_comm_cons, app_assoc in H.
    apply app_inj_tail in H as [H1 H2]. subst w. split; [reflexivity | symmetry; exact H1].
Qed.

Lemma NoDup_snoc {A} (l : list A) (x : A) :
  NoDup l -> ~ In x l -> NoDup (l ++ [x]).
Proof.
  induction l as [|y t IH]; intros Hnd Hx; simpl.
  - constructor; [intros [] | constructor].
  - inversion Hnd as [|? ? Hy Ht]; subst. constructor.
    + rewrite in_app_iff. intros [H | [H | []]]; [contradiction | subst; apply Hx; left; reflexivity].
    + apply IH; [exact Ht | intro H; apply Hx; right; exact H].
Qed.

Lemma preds_spec (g : Graph) (a u : string) : In a (preds g u) <-> edge g a u.
Proof.
  unfold preds, edge. rewrite in_map_iff. split.
  - intros (l & <- & Hl). apply filter_In in Hl as [Hl E]. apply String.eqb_eq in E. eauto.
  - intros (l & Hl & <- & <-). exists l. split; [reflexivity |].
    apply filter_In. split; [exact Hl | apply String.eqb_refl].
Qed.

Lemma ready_spec (g : Graph) (p : list string) (u : string) :
  ready g p u = true <-> ready_prop g p u.
Proof.
  unfold ready, ready_prop. rewrite andb_true_iff, negb_true_iff, mem_false, forallb_forall.
  split; intros [H1 H2]; split; auto.
  - intros a Ha. apply mem_spec, H2, preds_spec, Ha.
  - intros a Ha. apply mem_spec, H2, preds_spec, Ha.
Qed.

(** What [kahn] maintains about the order built so far. *)
Definition greedy (g : Graph) (o : list string) : Prop :=
  forall p u q, o = p ++ u :: q -> find_ready g p = Some u.

Definition kahn_inv (g : Graph) (o : list string) : Prop :=
  NoDup o /\ incl o (names g) /\ respects_links g o /\ greedy g o.

Lemma kahn_inv_nil (g : Graph) : kahn_inv g [].
Proof.
  split; [constructor | split; [intros x [] | split]].
  - intros l _ p q H. destruct p; discriminate.
  - intros p u q H. destruct p; discriminate.
Qed.

Lemma kahn_inv_step (g : Graph) (o : list string) (u : string) :
  kahn_inv g o -> find_ready g o = Some u -> kahn_inv g (o ++ [u]).
Proof.
  intros (Hnd & Hincl & Hresp & Hgr) Hf.
  destruct (find_split _ _ _ Hf) as (r1 & r2 & Hnames & Hready & _).
  apply ready_spec in Hready as [Hnin Hpre].
  split; [| split; [| split]].
  - apply NoDup_snoc; assumption.
  - intros x Hx. apply in_app_or in Hx as [Hx | [<- | []]]; [apply Hincl, Hx |].
    rewrite Hnames. apply in_or_app. right. left. reflexivity.
  - intros l Hl p q Heq. destruct (snoc_split _ _ _ _ _ (eq_sym Heq)) as [(-> & -> & Hd) | (q' & -> & Ho)].
    + apply Hpre. exists l. split; [exact Hl | split; [reflexivity | exact Hd]].
    + exact (Hresp l Hl p q' Ho).
  - intros p v q Heq. destruct (snoc_split _ _ _ _ _ (eq_sym Heq)) as [(-> & -> & ->) | (q' & -> & Ho)].
    + exact Hf.
    + exact (Hgr p v q' Ho).
Qed.

Lemma kahn_inv_kahn (g : Graph) (fuel : nat) (o : list string) :
  kahn_inv g o -> kahn_inv g (kahn g fuel o).
Proof.
  revert o. induction fuel as [|f IH]; intros o Hinv; simpl; [exact Hinv |].
  destruct (find_ready g o) eqn:E; [| exact Hinv].
  apply IH, kahn_inv_step; assumption.
Qed.

Lemma kahn_stop (g : Graph) (fuel : nat) (o : list string) :
  find_ready g (kahn g fuel o) = None \/
  List.length (kahn g fuel o) = List.length o + fuel.
Proof.
  revert o. induction fuel as [|f IH]; intro o; simpl; [right; lia |].
  destruct (find_ready g o) eqn:E; [| left; exact E].
  destruct (IH (o ++ [s])) as [H | H]; [left; exact H | right].
  rewrite H, length_app. simpl. lia.
Qed.

(** The order [validate] computes either holds every unit or is stuck. *)
Lemma topo_order_complete_or_stuck (g : Graph) :
  NoDup (names g) ->
  (forall n, In n (names g) -> In n (topo_order g)) \/
  find_ready g (topo_order g) = None.
Proof.
  intro Hnd. unfold topo_order.
  destruct (kahn_stop g (List.length (names g)) []) as [H | H]; [right; exact H | left].
  destruct (kahn_inv_kahn g (List.length (names g)) [] (kahn_inv_nil g))
    as (Hnd' & Hincl & _).
  simpl in H. intros n Hn.
  refine (NoDup_length_incl (l' := names g) Hnd' _ Hincl n Hn); lia.
Qed.

End ValidateFacts.

Module CycleFacts.
Import Graph GraphFacts ValidateFacts.

Lemma pending_spec (g : Graph) (o : list string) (x : string) :
  In x (pending g o) <-> In x (names g) /\ ~ In x o.
Proof.
  unfold pending. rewrite filter_In, negb_true_iff, mem_false. reflexivity.
Qed.

Lemma blocking_exists (g : Graph) (o : list string) (u : string) :
  wf g -> find_ready g o = None -> In u (pending g o) ->
  exists p, blocking_pred g o u = Some p /\ edge g p u /\ In p (pending g o).
Proof.
  intros [_ Hlinks] Hstuck Hu. apply pending_spec in Hu as [Hu Hnin].
  pose proof (find_none _ _ Hstuck u Hu) as Hnr.
  unfold blocking_pred. destruct (find (fun p => negb (mem p o)) (preds g u)) as [p|] eqn:E.
  - apply find_some in E as [Hp Hno]. apply negb_true_iff, mem_false in Hno.
    apply preds_spec in Hp. exists p. split; [reflexivity | split; [exact Hp |]].
    apply pending_spec. split; [| exact Hno].
    destruct Hp as (l & Hl & <- & _). apply (Hlinks l Hl).
  - exfalso. assert (Hr : ready_prop g o u).
    { split; [exact Hnin |]. intros a Ha. apply preds_spec in Ha.
      pose proof (find_none _ _ E a Ha) as Hm. apply negb_false_iff, mem_spec in Hm.
      exact Hm. }
    apply ready_spec in Hr. congruence.
Qed.

Lemma take_until_cycle (g : Graph) (p x : string) (t : list string) :
  In p (x :: t) -> chain g (x :: t) ->
  take_until p (x :: t) <> [] /\ hd "" (take_until p (x :: t)) = x /\
  last (take_until p (x :: t)) "" = p /\ chain g (take_until p (x :: t)) /\
  incl (take_until p (x :: t)) (x :: t).
Proof.
  revert x. induction t as [|y t IH]; intros x Hin Hch.
  - destruct Hin as [<- | []]. simpl. rewrite String.eqb_refl.
    repeat split; [discriminate | apply incl_refl].
  - change (take_until p (x :: y :: t))
      with (if String.eqb x p then [x] else x :: take_until p (y :: t)).
    destruct (String.eqb x p) eqn:E.
    + apply String.eqb_eq in E. subst x.
      repeat split; [discriminate | intros z [<- | []]; left; reflexivity].
    + apply String.eqb_neq in E. destruct Hin as [-> | Hin]; [congruence |].
      destruct Hch as [Hxy Hch].
      destruct (IH y Hin Hch) as (Hne & Hhd & Hlast & Hc & Hinc).
      destruct (take_until p (y :: t)) as [|z r] eqn:Ez; [congruence |].
      simpl in Hhd. subst z.
      split; [discriminate | split; [reflexivity | split; [| split]]].
      * exact Hlast.
      * split; [exact Hxy | exact Hc].
      * intros w [<- | Hw]; [left; reflexivity | right; apply Hinc, Hw].
Qed.

Lemma walk_cycle (g : Graph) (o : list string) :
  wf g -> find_ready g o = None ->
  forall fuel path, path <> [] -> NoDup path -> incl path (pending g o) ->
  chain g path -> List.length (pending g o) < List.length path + fuel ->
  is_cycle g (walk g o fuel path).
Proof.
  intros Hwf Hstuck fuel. induction fuel as [|f IH]; intros path Hne Hnd Hinc Hch Hlen.
  - exfalso. pose proof (NoDup_incl_length Hnd Hinc). lia.
  - destruct path as [|cur rest]; [congruence |]. cbn [walk].
    destruct (blocking_exists g o cur Hwf Hstuck (Hinc cur (or_introl eq_refl)))
      as (p & -> & Hedge & Hp).
    destruct (mem p (cur :: rest)) eqn:Em.
    + apply mem_spec in Em.
      destruct (take_until_cycle g p cur rest Em Hch) as (H1 & H2 & H3 & H4 & _).
      split; [exact H1 | split; [exact H4 |]]. rewrite H2, H3. exact Hedge.
    + apply mem_false in Em. apply IH.
      * discriminate.
      * constructor; assumption.
      * intros z [<- | Hz]; [exact Hp | apply Hinc, Hz].
      * split; [exact Hedge | exact Hch].
      * simpl in *. lia.
Qed.

Lemma find_cycle_spec (g : Graph) (o : list string) :
  wf g -> find_ready g o = None -> pending g o <> [] ->
  is_cycle g (find_cycle g o).
Proof.
  intros Hwf Hstuck Hne. unfold find_cycle.
  destruct (pending g o) as [|u r] eqn:E; [congruence |].
  apply walk_cycle; [exact Hwf | exact Hstuck | discriminate | | | exact I |].
  - constructor; [intros [] | constructor].
  - rewrite E. intros z [<- | []]; left; reflexivity.
  - rewrite E. simpl. lia.
Qed.

End CycleFacts.

Module OrderFacts.
Import Graph GraphFacts ValidateFacts CycleFacts.

Lemma unsatisfied_covers (g : Graph) (init : Inputs) :
  unsatisfied g init = [] -> covers g init.
Proof.
  intros E u Hu k Hk.
  destruct (covered g init (unit_name u) k) eqn:Ec.
  - unfold covered in Ec. apply orb_true_iff in Ec as [Hp | Hi].
    + left. apply has_producer_spec, Hp.
    + right. apply existsb_exists in Hi as ([[u' k'] v] & Hin & Hb).
      apply andb_true_iff in Hb as [H1 H2]. simpl in H1, H2.
      apply String.eqb_eq in H1, H2. subst. eauto.
  - exfalso. assert (Hx : In (unit_name u, k) (unsatisfied g init)).
    { unfold unsatisfied. apply in_flat_map. exists u. split; [exact Hu |].
      apply in_map. apply filter_In. split; [exact Hk | now rewrite Ec]. }
    rewrite E in Hx. destruct Hx.
Qed.

Lemma pos_in_prefix (a : string) (p q : list string) :
  In a p -> pos a (p ++ q) < List.length p.
Proof.
  induction p as [|x t IH]; intro H; [destruct H |]. simpl.
  destruct (String.eqb a x) eqn:E; [lia |].
  destruct H as [-> | H]; [rewrite String.eqb_refl in E; discriminate |].
  specialize (IH H). lia.
Qed.

Lemma pos_at (b : string) (p q : list string) :
  ~ In b p -> pos b (p ++ b :: q) = List.length p.
Proof.
  induction p as [|x t IH]; intro H; simpl; [now rewrite String.eqb_refl |].
  destruct (String.eqb b x) eqn:E.
  - apply String.eqb_eq in E. subst. exfalso. apply H. left. reflexivity.
  - rewrite IH; [reflexivity | intro H'; apply H; right; exact H'].
Qed.

Lemma edge_pos (g : Graph) (o : list string) (a b : string) :
  NoDup o -> respects_links g o -> edge g a b -> In b o -> pos a o < pos b o.
Proof.
  intros Hnd Hresp (l & Hl & <- & <-) Hb.
  destruct (in_split _ _ Hb) as (p & q & Ho).
  pose proof (Hresp l Hl p q Ho) as Ha.
  rewrite Ho in Hnd |- *. apply NoDup_remove_2 in Hnd.
  rewrite pos_at by (intro H; apply Hnd, in_or_app; left; exact H).
  apply pos_in_prefix. exact Ha.
Qed.

Lemma chain_pos (g : Graph) (o : list string) (x : string) (t : list string) :
  NoDup o -> respects_links g o -> chain g (x :: t) -> incl (x :: t) o ->
  pos x o <= pos (last (x :: t) "") o.
Proof.
  intros Hnd Hresp. revert x. induction t as [|y t IH]; intros x Hch Hinc; [simpl; lia |].
  destruct Hch as [Hxy Hch].
  assert (Hy : In y o) by (apply Hinc; right; left; reflexivity).
  pose proof (edge_pos g o x y Hnd Hresp Hxy Hy).
  assert (Hinc' : incl (y :: t) o) by (intros z Hz; apply Hinc; right; exact Hz).
  specialize (IH y Hch Hinc').
  change (last (x :: y :: t) "") with (last (y :: t) ""). lia.
Qed.

Lemma no_cycle_in_order (g : Graph) (o c : list string) :
  NoDup o -> respects_links g o -> is_cycle g c -> incl c o -> False.
Proof.
  intros Hnd Hresp (Hne & Hch & Hclose) Hinc.
  destruct c as [|x t]; [congruence |].
  pose proof (chain_pos g o x t Hnd Hresp Hch Hinc).
  pose proof (edge_pos g o _ _ Hnd Hresp Hclose (Hinc x (or_introl eq_refl))).
  simpl in *. lia.
Qed.

Lemma chain_dsts (g : Graph) (x : string) (t : list string) :
  chain g (x :: t) -> forall y, In y t -> exists a, edge g a y.
Proof.
  revert x. induction t as [|y t IH]; intros x Hch z Hz; [destruct Hz |].
  destruct Hch as [Hxy Hch]. destruct Hz as [<- | Hz]; [eauto | eapply IH; eauto].
Qed.

Lemma cycle_in_names (g : Graph) (c : list string) :
  wf g -> is_cycle g c -> incl c (names g).
Proof.
  intros [_ Hl] (Hne & Hch & Hclose) z Hz.
  destruct c as [|x t]; [congruence |].
  assert (He : exists a, edge g a z).
  { destruct Hz as [<- | Hz]; [eexists; exact Hclose | eapply chain_dsts; eauto]. }
  destruct He as (a & l & Hin & _ & <-). apply (Hl l Hin).
Qed.

Lemma covers_unsatisfied (g : Graph) (init : Inputs) :
  covers g init -> unsatisfied g init = [].
Proof.
  intro Hcov. destruct (unsatisfied g init) as [|x r] eqn:E; [reflexivity | exfalso].
  assert (Hx : In x (unsatisfied g init)) by (rewrite E; left; reflexivity).
  unfold unsatisfied in Hx. apply in_flat_map in Hx as (u & Hu & Hx).
  apply in_map_iff in Hx as (k & _ & Hk). apply filter_In in Hk as [Hk Hn].
  apply negb_true_iff in Hn. unfold covered in Hn. apply orb_false_iff in Hn as [H1 H2].
  destruct (Hcov u Hu k Hk) as [Hp | (v & Hv)].
  - apply has_producer_spec in Hp. congruence.
  - assert (Hex : existsb (fun i => String.eqb (fst (fst i)) (unit_name u)
                                    && String.eqb (snd (fst i)) k) init = true).
    { apply existsb_exists. exists (unit_name u, k, v). split; [exact Hv |].
      simpl. now rewrite !String.eqb_refl. }
    congruence.
Qed.

Lemma all_placed (g : Graph) (o : list string) :
  forallb (fun n => mem n o) (names g) = true <-> forall n, In n (names g) -> In n o.
Proof.
  rewrite forallb_forall. split; intros H n Hn; apply mem_spec, H, Hn.
Qed.

Lemma not_all_placed_pending (g : Graph) (o : list string) :
  forallb (fun n => mem n o) (names g) = false -> pending g o <> [].
Proof.
  intros Hf He. assert (H : forall n, In n (names g) -> In n o).
  { intros n Hn. destruct (mem n o) eqn:Em; [apply mem_spec, Em |].
    exfalso. assert (Hp : In n (pending g o)).
    { apply pending_spec. split; [exact Hn | apply mem_false, Em]. }
    rewrite He in Hp. destruct Hp. }
  apply all_placed in H. congruence.
Qed.

Lemma acyclic_of_complete (g : Graph) :
  forallb (fun n => mem n (topo_order g)) (names g) = true ->
  wf g -> forall c, ~ is_cycle g c.
Proof.
  intros E Hwf c Hc.
  destruct (kahn_inv_kahn g (List.length (names g)) [] (kahn_inv_nil g))
    as (Hnd & _ & Hresp & _).
  pose proof (proj1 (all_placed g (topo_order g)) E) as E'; clear E; rename E' into E.
  apply (no_cycle_in_order g (topo_order g) c Hnd Hresp Hc).
  intros z Hz. apply E, (cycle_in_names g c Hwf Hc), Hz.
Qed.

Lemma NoDup_of_nodupb (l : list string) :
  (fix nd (l : list string) : bool :=
     match l with [] => true | x :: t => negb (mem x t) && nd t end) l = true ->
  NoDup l.
Proof.
  induction l as [|x t IH]; intro H; constructor.
  - apply andb_true_iff in H as [H _]. apply negb_true_iff, mem_false in H. exact H.
  - apply IH. apply andb_true_iff in H as [_ H]. exact H.
Qed.

Lemma wf_of_check (g : Graph) :
  (fix nd (l : list string) : bool :=
     match l with [] => true | x :: t => negb (mem x t) && nd t end) (names g) = true ->
  forallb (fun l => mem (src l) (names g) && mem (dst l) (names g)) (links g) = true ->
  wf g.
Proof.
  intros H1 H2. split; [apply NoDup_of_nodupb, H1 |].
  intros l Hl. rewrite forallb_forall in H2. apply H2, andb_true_iff in Hl as [A B].
  split; apply mem_spec; assumption.
Qed.

End OrderFacts.

(** C6 (modelled from the spec): a well-formed graph (registered names
    distinct, link endpoints registered, as [register] and [add_link]
    maintain) whose links contain a cycle of any length >= 1, self-loops
    included, fails validation with [CycleError c'] for every choice of
    initial inputs, and the [c'] it names is itself a cycle of the graph. *)
Theorem validate_rejects_cycles (g : Graph.Graph) (init : Graph.Inputs)
    (c : list string) :
  Graph.wf g -> Graph.is_cycle g c ->
  exists c', Graph.validate g init = inl (Graph.CycleError c') /\ Graph.is_cycle g c'.
Proof.
  intros Hwf Hc. unfold Graph.validate.
  destruct (ValidateFacts.kahn_inv_kahn g (List.length (Graph.names g)) []
              (ValidateFacts.kahn_inv_nil g)) as (Hnd & _ & Hresp & _).
  fold (Graph.topo_order g) in Hnd, Hresp.
  destruct (forallb (fun n => Graph.mem n (Graph.topo_order g)) (Graph.names g)) eqn:E.
  - exfalso. pose proof (proj1 (OrderFacts.all_placed g (Graph.topo_order g)) E) as E'; clear E; rename E' into E.
    apply (OrderFacts.no_cycle_in_order g (Graph.topo_order g) c Hnd Hresp Hc).
    intros z Hz. apply E, (OrderFacts.cycle_in_names g c Hwf Hc), Hz.
  - eexists. split; [reflexivity |].
    destruct (ValidateFacts.topo_order_complete_or_stuck g (proj1 Hwf)) as [H | H].
    + apply (OrderFacts.all_placed g (Graph.topo_order g)) in H. congruence.
    + apply CycleFacts.find_cycle_spec; [exact Hwf | exact H |].
      apply OrderFacts.not_all_placed_pending, E.
Qed.

(** C5 (modelled from the spec): for a valid graph (well formed, no cycle,
    every required input covered by a link or an initial input),
    [validate] returns an order holding every registered unit exactly once,
    in which the source of every link precedes its destination, and whose
    ties are broken by registration order: each unit is the first
    registered unit that is ready (unplaced, all producers placed) after
    the units before it. *)
Theorem validate_topological (g : Graph.Graph) (init : Graph.Inputs) :
  Graph.wf g -> (forall c, ~ Graph.is_cycle g c) -> Graph.covers g init ->
  exists order, Graph.validate g init = inr order /\
    NoDup order /\ (forall n, In n order <-> In n (Graph.names g)) /\
    Graph.respects_links g order /\
    (forall p u q, order = p ++ u :: q ->
       exists r1 r2, Graph.names g = r1 ++ u :: r2 /\ Graph.ready_prop g p u /\
         forall v, In v r1 -> ~ Graph.ready_prop g p v).
Proof.
  intros Hwf Hacyc Hcov. unfold Graph.validate.
  destruct (ValidateFacts.kahn_inv_kahn g (List.length (Graph.names g)) []
              (ValidateFacts.kahn_inv_nil g)) as (Hnd & Hincl & Hresp & Hgr).
  fold (Graph.topo_order g) in Hnd, Hincl, Hresp, Hgr.
  destruct (forallb (fun n => Graph.mem n (Graph.topo_order g)) (Graph.names g)) eqn:E.
  - rewrite (OrderFacts.covers_unsatisfied g init Hcov).
    pose proof (proj1 (OrderFacts.all_placed g (Graph.topo_order g)) E) as E'; clear E; rename E' into E.
    exists (Graph.topo_order g). split; [reflexivity |].
    split; [exact Hnd | split; [| split; [exact Hresp |]]].
    + intro n. split; [apply Hincl | apply E].
    + intros p u q Heq. destruct (ValidateFacts.find_split _ _ _ (Hgr p u q Heq))
        as (r1 & r2 & Hn & Hu & Hv).
      exists r1, r2. split; [exact Hn | split; [apply ValidateFacts.ready_spec, Hu |]].
      intros v Hin Hr. apply ValidateFacts.ready_spec in Hr. rewrite (Hv v Hin) in Hr.
      discriminate.
  - exfalso.
    destruct (ValidateFacts.topo_order_complete_or_stuck g (proj1 Hwf)) as [H | H].
    + apply (OrderFacts.all_placed g (Graph.topo_order g)) in H. congruence.
    + apply (Hacyc (Graph.find_cycle g (Graph.topo_order g))).
      apply CycleFacts.find_cycle_spec; [exact Hwf | exact H |].
      apply OrderFacts.not_all_placed_pending, E.
Qed.

Ltac in_list := repeat (first [left; reflexivity | right]).

Example add_link_contract_witness :
  let g := Graph.registered_notebook_units in
  let ins := [("rewrite_retriever", "default", "rewrite_nodes");
              ("query_retriever", "default", "query_nodes")] in
  In "join" (Graph.names g) /\
  Forall (fun x => In (fst (fst x)) (Graph.names g)) ins /\
  NoDup (map snd ins) /\
  (forall x, In x ins ->
     ~ exists l, In l (Graph.links g) /\ Graph.dst l = "join" /\ Graph.dst_key l = snd x) /\
  exists g', Graph.add_links g
               (map (fun x => (fst (fst x), snd (fst x), "join", snd x)) ins) = inr g' /\
    Graph.units g' = Graph.units g /\
    Graph.links g' = Graph.links g ++
      map (fun x => {| Graph.src := fst (fst x); Graph.src_key := snd (fst x);
                       Graph.dst := "join"; Graph.dst_key := snd x |}) ins.
Proof.
  intros g ins.
  assert (H1 : In "join" (Graph.names g)) by (vm_compute; in_list).
  assert (H2 : Forall (fun x => In (fst (fst x)) (Graph.names g)) ins)
    by (apply Forall_forall; intros x Hx; cbn in Hx;
        repeat destruct Hx as [<- | Hx]; try destruct Hx; vm_compute; in_list).
  assert (H3 : NoDup (map snd ins))
    by (cbn; constructor; [intros [H | []]; discriminate | constructor; [intros [] | constructor]]).
  assert (H4 : forall x, In x ins ->
     ~ exists l, In l (Graph.links g) /\ Graph.dst l = "join" /\ Graph.dst_key l = snd x)
    by (intros x _ (l & Hl & _); vm_compute in Hl; destruct Hl).
  split; [exact H1 | split; [exact H2 | split; [exact H3 | split; [exact H4 |]]]].
  exact (proj2 (proj2 (proj2 (proj2 (add_link_contract g "rewrite_retriever" "default"
           "join" "rewrite_nodes")))) ins H1 H2 H3 H4).
Defined.

Example validate_rejects_cycles_witness :
  Graph.wf Graph.self_loop_graph /\ Graph.is_cycle Graph.self_loop_graph ["a"] /\
  exists c', Graph.validate Graph.self_loop_graph [] = inl (Graph.CycleError c') /\
    Graph.is_cycle Graph.self_loop_graph c'.
Proof.
  assert (Hwf : Graph.wf Graph.self_loop_graph)
    by (apply OrderFacts.wf_of_check; vm_compute; reflexivity).
  assert (Hc : Graph.is_cycle Graph.self_loop_graph ["a"]).
  { split; [discriminate | split; [exact I |]].
    exists {| Graph.src := "a"; Graph.src_key := "out"; Graph.dst := "a"; Graph.dst_key := "x" |}.
    split; [left; reflexivity | split; reflexivity]. }
  split; [exact Hwf | split; [exact Hc |]].
  exact (validate_rejects_cycles Graph.self_loop_graph [] ["a"] Hwf Hc).
Defined.

(** The cycle named on the self-loop graph, evaluated. *)
Example self_loop_cycle_named :
  Graph.validate Graph.self_loop_graph [] = inl (Graph.CycleError ["a"]).
Proof. vm_compute. reflexivity. Qed.

Example validate_topological_witness :
  let g := Graph.notebook_graph in
  let init := Graph.notebook_inputs "What models support it?" in
  Graph.wf g /\ (forall c, ~ Graph.is_cycle g c) /\ Graph.covers g init /\
  exists order, Graph.validate g init = inr order /\
    NoDup order /\ (forall n, In n order <-> In n (Graph.names g)) /\
    Graph.respects_links g order /\
    (forall p u q, order = p ++ u :: q ->
       exists r1 r2, Graph.names g = r1 ++ u :: r2 /\ Graph.ready_prop g p u /\
         forall v, In v r1 -> ~ Graph.ready_prop g p v).
Proof.
  intros g init.
  assert (Hwf : Graph.wf g) by (apply OrderFacts.wf_of_check; vm_compute; reflexivity).
  assert (Hac : forall c, ~ Graph.is_cycle g c)
    by (apply OrderFacts.acyclic_of_complete; [vm_compute; reflexivity | exact Hwf]).
  assert (Hcov : Graph.covers g init)
    by (apply OrderFacts.unsatisfied_covers; vm_compute; reflexivity).
  split; [exact Hwf | split; [exact Hac | split; [exact Hcov |]]].
  exact (validate_topological g init Hwf Hac Hcov).
Defined.

Module ExecFacts.
Import Graph GraphFacts ValidateFacts OrderFacts.

Lemma exec_app (g : Graph) (init : Inputs) (a b : list string) (s0 : Store) :
  exec g init (a ++ b) s0 =
  match exec g init a s0 with inl e => inl e | inr s' => exec g init b s' end.
Proof.
  revert s0. induction a as [|x t IH]; intro s0; simpl; [reflexivity |].
  destruct (run_unit g init s0 x); [reflexivity | apply IH].
Qed.

(** [gather] reads only the entries of the unit's producers. *)
Lemma gather_ext (g : Graph) (init : Inputs) (s s' : Store) (y : string) :
  (forall a, edge g a y -> s a = s' a) -> gather g init s y = gather g init s' y.
Proof.
  intro H. unfold gather. f_equal.
  assert (Hgen : forall ls, incl ls (links g) ->
    flat_map (fun l => if String.eqb (dst l) y then
                match s (src l) with
                | Some outs => match select_output (src_key l) outs with
                               | Some v => [(dst_key l, v)] | None => [] end
                | None => [] end else []) ls =
    flat_map (fun l => if String.eqb (dst l) y then
                match s' (src l) with
                | Some outs => match select_output (src_key l) outs with
                               | Some v => [(dst_key l, v)] | None => [] end
                | None => [] end else []) ls).
  { induction ls as [|l ls IH]; intro Hinc; simpl; [reflexivity |].
    rewrite IH by (intros z Hz; apply Hinc; right; exact Hz).
    destruct (String.eqb (dst l) y) eqn:E; [| reflexivity].
    apply String.eqb_eq in E. rewrite (H (src l)); [reflexivity |].
    exists l. split; [apply Hinc; left; reflexivity | split; [reflexivity | exact E]]. }
  apply Hgen, incl_refl.
Qed.

Lemma respects_prefix (g : Graph) (o : list string) (x : string) :
  respects_links g (o ++ [x]) -> respects_links g o.
Proof.
  intros H l Hl p q Heq. apply (H l Hl p (q ++ [x])). rewrite Heq, <- app_assoc. reflexivity.
Qed.

Lemma preds_before (g : Graph) (o : list string) (y a : string) :
  respects_links g o -> In y o -> edge g a y -> In a o.
Proof.
  intros Hr Hy (l & Hl & <- & <-). destruct (in_split _ _ Hy) as (p & q & Ho).
  pose proof (Hr l Hl p q Ho). rewrite Ho. apply in_or_app. left. assumption.
Qed.

(** The store [s] is the result of running exactly the units of [o]: each
    entry is the unit's behaviour on the inputs gathered from [s] itself. *)
Definition solves (g : Graph) (init : Inputs) (o : list string) (s : Store) : Prop :=
  (forall x, ~ In x o -> s x = None) /\
  (forall x, In x o -> exists u, find_unit g x = Some u /\
     missing_required u (gather g init s x) = None /\
     s x = Some (behavior u (gather g init s x))).

Lemma upd_same (s : Store) (u : string) (o : list (string * Value)) : upd s u o u = Some o.
Proof. unfold upd. now rewrite String.eqb_refl. Qed.

Lemma upd_other (s : Store) (u x : string) (o : list (string * Value)) :
  x <> u -> upd s u o x = s x.
Proof. intro H. unfold upd. apply String.eqb_neq in H. now rewrite H. Qed.

Lemma exec_solves (g : Graph) (init : Inputs) (o : list string) (s : Store) :
  NoDup o -> respects_links g o -> exec g init o empty_store = inr s -> solves g init o s.
Proof.
  revert s. induction o as [|x o IH] using rev_ind; intros s Hnd Hr Hex.
  - simpl in Hex. injection Hex as <-. split; [reflexivity | intros x []].
  - rewrite exec_app in Hex. destruct (exec g init o empty_store) as [e|s'] eqn:E;
      [discriminate |].
    assert (Hnd' : NoDup o) by (eapply NoDup_app_remove_r; exact Hnd).
    assert (Hx : ~ In x o).
    { intro H. apply NoDup_remove_2 in Hnd. apply Hnd. rewrite app_nil_r. exact H. }
    specialize (IH s' Hnd' (respects_prefix g o x Hr) eq_refl) as [IHa IHb].
    simpl in Hex. unfold run_unit in Hex.
    destruct (find_unit g x) as [u|] eqn:Hu; [| discriminate].
    destruct (missing_required u (gather g init s' x)) as [k|] eqn:Hm; [discriminate |].
    injection Hex as <-.
    assert (Hgx : gather g init (upd s' x (behavior u (gather g init s' x))) x
                  = gather g init s' x).
    { apply gather_ext. intros a Ha. apply upd_other. intros ->.
      destruct Ha as (l & Hl & Es & Ed). apply Hx. rewrite <- Es.
      apply (Hr l Hl o []). rewrite Ed. reflexivity. }
    split.
    + intros y Hy. rewrite upd_other by (intros ->; apply Hy, in_or_app; right; left; reflexivity).
      apply IHa. intro H. apply Hy, in_or_app. left. exact H.
    + intros y Hy. apply in_app_or in Hy as [Hy | [<- | []]].
      * destruct (IHb y Hy) as (v & Hv & Hmv & Hsv). exists v.
        assert (Hgy : gather g init (upd s' x (behavior u (gather g init s' x))) y
                      = gather g init s' y).
        { apply gather_ext. intros a Ha. apply upd_other. intros ->.
          apply Hx. apply (preds_before g o y x (respects_prefix g o x Hr) Hy Ha). }
        rewrite Hgy. split; [exact Hv | split; [exact Hmv |]].
        rewrite upd_other by (intros ->; contradiction). exact Hsv.
      * exists u. rewrite Hgx. split; [exact Hu | split; [exact Hm | apply upd_same]].
Qed.

(** Any other schedule over the same units rebuilds the same store. *)
Lemma exec_transfer (g : Graph) (init : Inputs) (o1 o2 : list string) (s1 : Store) :
  solves g init o1 s1 -> (forall n, In n o1 <-> In n o2) ->
  NoDup o2 -> respects_links g o2 ->
  exists s2, exec g init o2 empty_store = inr s2 /\ forall u, s1 u = s2 u.
Proof.
  intros [Ha Hb] Hsame Hnd Hr.
  assert (Hgen : forall p q, o2 = p ++ q ->
    exists sp, exec g init p empty_store = inr sp /\
      (forall x, In x p -> sp x = s1 x) /\ (forall x, ~ In x p -> sp x = None)).
  { induction p as [|x p IH] using rev_ind; intros q Ho.
    - exists empty_store. split; [reflexivity | split; [intros x [] | reflexivity]].
    - rewrite <- app_assoc in Ho. simpl in Ho.
      destruct (IH (x :: q) Ho) as (sp & Hex & Hin & Hout).
      assert (Hx2 : In x o2) by (rewrite Ho; apply in_or_app; right; left; reflexivity).
      assert (Hxp : ~ In x p).
      { rewrite Ho in Hnd. apply NoDup_remove_2 in Hnd. intro H. apply Hnd, in_or_app.
        left. exact H. }
      destruct (Hb x (proj2 (Hsame x) Hx2)) as (u & Hu & Hm & Hs).
      assert (Hg : gather g init sp x = gather g init s1 x).
      { apply gather_ext. intros a (l & Hl & Es & Ed). apply Hin. rewrite <- Es.
        apply (Hr l Hl p q). rewrite Ed. exact Ho. }
      exists (upd sp x (behavior u (gather g init s1 x))).
      rewrite exec_app, Hex. simpl. unfold run_unit. rewrite Hu, Hg, Hm.
      split; [reflexivity | split].
      + intros y Hy. apply in_app_or in Hy as [Hy | [<- | []]].
        * rewrite upd_other by (intros ->; contradiction). apply Hin, Hy.
        * rewrite upd_same. symmetry. exact Hs.
      + intros y Hy. rewrite upd_other by (intros ->; apply Hy, in_or_app; right; left; reflexivity).
        apply Hout. intro H. apply Hy, in_or_app. left. exact H. }
  destruct (Hgen o2 [] (eq_sym (app_nil_r o2))) as (s2 & Hex & Hin & _).
  exists s2. split; [exact Hex |]. intro u.
  destruct (in_dec String.string_dec u o2) as [H | H].
  - symmetry. apply Hin, H.
  - destruct (exec_solves g init o2 s2 Hnd Hr Hex) as [Ha2 _].
    rewrite (Ha u), (Ha2 u H); [reflexivity |]. intro H1. apply H, Hsame, H1.
Qed.

(** The order [validate] returns is a schedule. *)
Lemma validate_schedule (g : Graph) (init : Inputs) (o : list string) :
  validate g init = inr o -> schedule g o.
Proof.
  unfold validate. intro H.
  destruct (kahn_inv_kahn g (List.length (names g)) [] (kahn_inv_nil g))
    as (Hnd & Hincl & Hresp & _).
  fold (topo_order g) in Hnd, Hincl, Hresp.
  destruct (forallb (fun n => mem n (topo_order g)) (names g)) eqn:E; [| discriminate].
  destruct (unsatisfied g init) as [|[u k] t]; [| discriminate].
  injection H as <-.
  pose proof (proj1 (all_placed g (topo_order g)) E) as E'.
  split; [exact Hnd | split; [intro n; split; [apply Hincl | apply E'] | exact Hresp]].
Qed.

Lemma respects_of_check (g : Graph) (o : list string) :
  NoDup o -> respects_links_b g o = true -> respects_links g o.
Proof.
  intros Hnd H l Hl p q Ho. unfold respects_links_b in H. rewrite forallb_forall in H.
  specialize (H l Hl). rewrite Ho in H, Hnd.
  apply NoDup_remove_2 in Hnd.
  rewrite pos_at in H by (intro H'; apply Hnd, in_or_app; left; exact H').
  rewrite firstn_app, Nat.sub_diag, firstn_all in H. simpl in H.
  rewrite app_nil_r in H. apply mem_spec, H.
Qed.

Lemma schedule_of_check (g : Graph) (o : list string) :
  NoDup o ->
  forallb (fun n => mem n (names g)) o = true ->
  forallb (fun n => mem n o) (names g) = true ->
  respects_links_b g o = true -> schedule g o.
Proof.
  intros Hnd H1 H2 H3. split; [exact Hnd | split; [| apply respects_of_check; assumption]].
  rewrite forallb_forall in H1, H2.
  intro n. split; intro Hn; apply mem_spec; [apply H1 | apply H2]; exact Hn.
Qed.

End ExecFacts.

(** C7 (modelled from the spec): the executor's outputs are determined by the graph and the initial
    inputs.  [run] is a function, so two runs with identical inputs return the
    same result; more strongly, the result does not depend on which schedule
    the executor follows: if running along one schedule succeeds, running
    along any other schedule succeeds with an equal store, and a successful
    [run] agrees with every schedule. *)
Theorem run_deterministic (g : Graph.Graph) (init : Graph.Inputs) (o1 o2 : list string) :
  Graph.schedule g o1 -> Graph.schedule g o2 ->
  (forall s1, Graph.exec g init o1 Graph.empty_store = inr s1 ->
     exists s2, Graph.exec g init o2 Graph.empty_store = inr s2 /\ forall u, s1 u = s2 u) /\
  (forall s, Graph.run g init = inr s ->
     exists s2, Graph.exec g init o2 Graph.empty_store = inr s2 /\ forall u, s u = s2 u).
Proof.
  intros (Hnd1 & Hs1 & Hr1) (Hnd2 & Hs2 & Hr2).
  split.
  - intros s1 Hex.
    apply (ExecFacts.exec_transfer g init o1 o2 s1
             (ExecFacts.exec_solves g init o1 s1 Hnd1 Hr1 Hex)); [| exact Hnd2 | exact Hr2].
    intro n. rewrite Hs1, Hs2. reflexivity.
  - intros s Hrun. unfold Graph.run in Hrun.
    destruct (Graph.validate g init) as [e | o] eqn:Ev; [discriminate |].
    destruct (ExecFacts.validate_schedule g init o Ev) as (Hnd & Hs & Hr).
    apply (ExecFacts.exec_transfer g init o o2 s
             (ExecFacts.exec_solves g init o s Hnd Hr Hrun)); [| exact Hnd2 | exact Hr2].
    intro n. rewrite Hs, Hs2. reflexivity.
Qed.

Example run_deterministic_witness :
  let g := Graph.notebook_graph in
  let init := Graph.notebook_inputs "What models support it?" in
  Graph.schedule g (Graph.topo_order g) /\ Graph.schedule g Graph.notebook_schedule_2 /\
  ((forall s1, Graph.exec g init (Graph.topo_order g) Graph.empty_store = inr s1 ->
     exists s2, Graph.exec g init Graph.notebook_schedule_2 Graph.empty_store = inr s2 /\
       forall u, s1 u = s2 u) /\
   (forall s, Graph.run g init = inr s ->
     exists s2, Graph.exec g init Graph.notebook_schedule_2 Graph.empty_store = inr s2 /\
       forall u, s u = s2 u)).
Proof.
  intros g init.
  assert (H1 : Graph.schedule g (Graph.topo_order g))
    by (apply ExecFacts.schedule_of_check;
        [apply OrderFacts.NoDup_of_nodupb | | |]; vm_compute; reflexivity).
  assert (H2 : Graph.schedule g Graph.notebook_schedule_2)
    by (apply ExecFacts.schedule_of_check;
        [apply OrderFacts.NoDup_of_nodupb | | |]; vm_compute; reflexivity).
  split; [exact H1 | split; [exact H2 |]].
  exact (run_deterministic g init (Graph.topo_order g) Graph.notebook_schedule_2 H1 H2).
Defined.

(** The two schedules differ, and both reach a store; the notebook's run
    succeeds. *)
Example notebook_schedules_differ :
  Graph.topo_order Graph.notebook_graph <> Graph.notebook_schedule_2 /\
  exists s, Graph.run Graph.notebook_graph
              (Graph.notebook_inputs "What models support it?") = inr s.
Proof.
  split; [vm_compute; discriminate |].
  eexists. vm_compute. reflexivity.
Qed.

Module ComposeFacts.
Import Compose.

(** The probe of the descriptor, evaluated for an arbitrary server. *)
Lemma run_test_elasticsearch (server : Server) :
  run_test server elasticsearch_healthcheck =
  match server health_request with
  | None => (1, [health_request])
  | Some st => if http_error st then (1, [health_request]) else (0, [health_request])
  end.
Proof.
  cbv -[http_error]. destruct (server _) as [st|]; [| reflexivity].
  destruct (http_error st); reflexivity.
Qed.

End ComposeFacts.

(** C8: the compose descriptor declares exactly one service, the
    [elasticsearch] service run from a published image, with the single
    fixed port mapping 9200 to 9200 and a health probe which, whatever the
    server does, sends one HTTP GET to [localhost:9200/_cluster/health] and
    reports healthy exactly when a response with a non-error status (below
    400: [curl --fail]) arrives; the probe's status is 0 or 1. *)
Theorem compose_descriptor :
  exists svc, Compose.services Compose.compose_file = [("elasticsearch", svc)] /\
    Compose.image svc = "docker.elastic.co/elasticsearch/elasticsearch:8.13.2" /\
    map Compose.port_mapping (Compose.ports svc) = [Some (9200, 9200)] /\
    exists hc, Compose.healthcheck svc = Some hc /\
      forall server : Compose.Server,
        snd (Compose.run_test server hc) = [Compose.health_request] /\
        (Compose.probe_healthy server hc = true <->
           exists st, server Compose.health_request = Some st /\ st < 400) /\
        (fst (Compose.run_test server hc) = 0 \/ fst (Compose.run_test server hc) = 1).
Proof.
  exists Compose.elasticsearch. split; [reflexivity |]. split; [reflexivity |].
  split; [vm_compute; reflexivity |].
  exists Compose.elasticsearch_healthcheck. split; [reflexivity |]. intro server.
  unfold Compose.probe_healthy. rewrite ComposeFacts.run_test_elasticsearch.
  destruct (server Compose.health_request) as [st|] eqn:E.
  - destruct (Compose.http_error st) eqn:L; unfold Compose.http_error in L;
      cbn [fst snd Nat.eqb].
    + split; [reflexivity | split; [| right; reflexivity]].
      split; [discriminate |]. intros (st' & H & Hl).
      injection H as <-. apply Nat.leb_le in L. lia.
    + split; [reflexivity | split; [| left; reflexivity]].
      split; [| reflexivity]. intros _. exists st. split; [reflexivity |].
      apply Nat.leb_gt in L. exact L.
  - cbn [fst snd Nat.eqb]. split; [reflexivity | split; [| right; reflexivity]].
    split; [discriminate |]. intros (st' & H & _). congruence.
Qed.

(* ================================================================= *)
(** * Further properties of the notebook's code *)

Module TextFacts.
Import PyStr Cleanup PyText.

Lemma las_app (a b : string) :
  list_ascii_of_string (a ++ b) = (list_ascii_of_string a ++ list_ascii_of_string b)%list.
Proof. induction a as [|c a IH]; simpl; [reflexivity | now rewrite IH]. Qed.

Lemma split_single (c : ascii) (x : string) :
  ~ In c (list_ascii_of_string x) -> split c x = [x].
Proof.
  induction x as [|a t IH]; intro H; simpl; [reflexivity |].
  simpl in H. destruct (Ascii.eqb a c) eqn:E.
  - apply Ascii.eqb_eq in E. subst. tauto.
  - rewrite IH by tauto. reflexivity.
Qed.

Lemma split_app (c : ascii) (x s : string) :
  ~ In c (list_ascii_of_string x) -> split c (x ++ String c s) = x :: split c s.
Proof.
  induction x as [|a t IH]; intro H; simpl.
  - now rewrite Ascii.eqb_refl.
  - simpl in H. destruct (Ascii.eqb a c) eqn:E.
    + apply Ascii.eqb_eq in E. subst. tauto.
    + rewrite IH by tauto. reflexivity.
Qed.

Lemma split_join (c : ascii) (xs : list string) :
  xs <> [] -> (forall x, In x xs -> ~ In c (list_ascii_of_string x)) ->
  split c (ChatLoop.join (String c EmptyString) xs) = xs.
Proof.
  induction xs as [|x t IH]; intros Hne H; [congruence |].
  destruct t as [|y t].
  - apply split_single, H. left. reflexivity.
  - change (ChatLoop.join (String c EmptyString) (x :: y :: t))
      with (x ++ String c (ChatLoop.join (String c EmptyString) (y :: t)))%string.
    rewrite split_app by (apply H; left; reflexivity).
    rewrite IH; [reflexivity | discriminate |].
    intros z Hz. apply H. right. exact Hz.
Qed.

(** The same facts for [split_str] and [join_str] on code points. *)

Lemma split_str_nonempty (c : N) (s : pystr) : split_str c s <> [].
Proof.
  induction s as [|a t IH]; simpl; [discriminate |].
  destruct (N.eqb a c); [discriminate |].
  destruct (split_str c t); discriminate.
Qed.

Lemma split_str_no_sep (c : N) (s : pystr) :
  forall x, In x (split_str c s) -> ~ In c x.
Proof.
  induction s as [|a t IH]; simpl; intros x Hx.
  - destruct Hx as [<- | []]. simpl. tauto.
  - destruct (N.eqb a c) eqn:E.
    + destruct Hx as [<- | Hx]; [simpl; tauto | apply IH, Hx].
    + destruct (split_str c t) as [|w ws] eqn:Es;
        [exfalso; exact (split_str_nonempty c t Es) |].
      destruct Hx as [<- | Hx]; [| apply IH; right; exact Hx].
      simpl. intros [H | H].
      * subst. rewrite N.eqb_refl in E. discriminate.
      * apply (IH w); [left; reflexivity | exact H].
Qed.

Lemma split_str_single (c : N) (x : pystr) : ~ In c x -> split_str c x = [x].
Proof.
  induction x as [|a t IH]; intro H; simpl; [reflexivity |].
  simpl in H. destruct (N.eqb a c) eqn:E.
  - apply N.eqb_eq in E. subst. tauto.
  - rewrite IH by tauto. reflexivity.
Qed.

Lemma split_str_app (c : N) (x s : pystr) :
  ~ In c x -> split_str c (x ++ c :: s) = x :: split_str c s.
Proof.
  induction x as [|a t IH]; intro H; simpl.
  - now rewrite N.eqb_refl.
  - simpl in H. destruct (N.eqb a c) eqn:E.
    + apply N.eqb_eq in E. subst. tauto.
    + rewrite IH by tauto. reflexivity.
Qed.

Lemma split_join_str (c : N) (xs : list pystr) :
  xs <> [] -> (forall x, In x xs -> ~ In c x) ->
  split_str c (join_str [c] xs) = xs.
Proof.
  induction xs as [|x t IH]; intros Hne H; [congruence |].
  destruct t as [|y t].
  - apply split_str_single, H. left. reflexivity.
  - change (join_str [c] (x :: y :: t)) with (x ++ [c] ++ join_str [c] (y :: t)).
    cbn [app]. rewrite split_str_app by (apply H; left; reflexivity).
    rewrite IH; [reflexivity | discriminate |].
    intros z Hz. apply H. right. exact Hz.
Qed.

Lemma join_str_cons (sep : pystr) (a : N) (w : pystr) (ws : list pystr) :
  join_str sep ((a :: w) :: ws) = a :: join_str sep (w :: ws).
Proof. destruct ws; reflexivity. Qed.

Lemma join_split_str (c : N) (s : pystr) : join_str [c] (split_str c s) = s.
Proof.
  induction s as [|a t IH]; simpl; [reflexivity |].
  destruct (N.eqb a c) eqn:E.
  - apply N.eqb_eq in E. subst.
    destruct (split_str c t) as [|w ws] eqn:Es;
      [exfalso; exact (split_str_nonempty c t Es) |].
    change (join_str [c] ([] :: w :: ws)) with (c :: join_str [c] (w :: ws)).
    now rewrite IH.
  - destruct (split_str c t) as [|w ws] eqn:Es;
      [exfalso; exact (split_str_nonempty c t Es) |].
    rewrite join_str_cons. now rewrite IH.
Qed.

(** The loop keeps a list with no two consecutive blank lines as it is. *)
Lemma fix_loop_id (prev : pystr) (rest : list pystr) :
  no_two_blank (prev :: rest) -> fix_loop prev rest = rest.
Proof.
  revert prev. induction rest as [|x r IH]; intros prev H; [reflexivity |].
  destruct H as [Hpx H]. cbn [fix_loop].
  destruct (strip_empty x) eqn:Ex, (strip_empty prev) eqn:Ep; cbn [andb];
    try (rewrite IH by exact H; reflexivity).
  exfalso. apply Hpx. split; first [assumption | reflexivity].
Qed.

Lemma subseq_in {A} (l1 l2 : list A) : subseq l1 l2 -> forall x, In x l1 -> In x l2.
Proof.
  induction 1; intros z Hz; simpl in *; [exact Hz | | right; apply IHsubseq, Hz].
  destruct Hz as [-> | Hz]; [left; reflexivity | right; apply IHsubseq, Hz].
Qed.

Lemma fix_loop_app (prev : pystr) (a b : list pystr) :
  fix_loop prev (a ++ b) = (fix_loop prev a ++ fix_loop (last (prev :: a) []) b)%list.
Proof.
  revert prev. induction a as [|x a IH]; intro prev; [reflexivity |].
  cbn [app fix_loop]. rewrite IH.
  replace (last (prev :: x :: a) []) with (last (x :: a) []) by (destruct a; reflexivity).
  destruct (strip_empty x && strip_empty prev); reflexivity.
Qed.

Lemma fix_loop_blank_run (prev : pystr) (bs rest : list pystr) :
  strip_empty prev = true -> Forall (fun b => strip_empty b = true) bs ->
  fix_loop prev (bs ++ rest) = fix_loop (last (prev :: bs) []) rest.
Proof.
  revert prev. induction bs as [|b bs IH]; intros prev Hp Hbs; [reflexivity |].
  inversion Hbs as [|b' bs' Hb Hbs']; subst.
  cbn [app fix_loop]. rewrite Hb, Hp. cbn [andb]. rewrite IH by assumption.
  destruct bs; reflexivity.
Qed.

End TextFacts.

Module ComponentExtra.
Import Py Component HeapFacts ComponentFacts.

Lemma soa_app (s : string) (l : list ascii) :
  string_of_list_ascii (list_ascii_of_string s ++ l) = (s ++ string_of_list_ascii l)%string.
Proof. induction s; simpl; congruence. Qed.

Lemma str_app_assoc (a b c : string) : (a ++ (b ++ c) = (a ++ b) ++ c)%string.
Proof. induction a as [|x a IH]; simpl; congruence. Qed.

Lemma parse_digits_app (x y : string) (acc : nat) :
  Compose.parse_digits (x ++ y) acc =
  match Compose.parse_digits x acc with Some a => Compose.parse_digits y a | None => None end.
Proof.
  revert acc. induction x as [|c x IH]; intro acc; cbn [String.append Compose.parse_digits];
    [reflexivity |].
  destruct (Nat.leb 48 (nat_of_ascii c) && Nat.leb (nat_of_ascii c) 57)%bool;
    [apply IH | reflexivity].
Qed.

Lemma parse_digit (d acc : nat) : d < 10 ->
  Compose.parse_digits (digit d) acc = Some (acc * 10 + d).
Proof.
  intro Hd. unfold digit. cbn [Compose.parse_digits].
  rewrite nat_ascii_embedding by lia.
  replace (Nat.leb 48 (48 + d) && Nat.leb (48 + d) 57)%bool with true.
  - f_equal. lia.
  - symmetry. apply andb_true_iff. split; apply Nat.leb_le; lia.
Qed.

(** [str(n)] spelled in decimal reads back as [n]. *)
Lemma parse_str_nat_fuel (f n : nat) : n <= f ->
  exists k, forall acc, Compose.parse_digits (str_nat_fuel f n) acc = Some (acc * 10 ^ k + n).
Proof.
  revert n. induction f as [|f IH]; intros n Hn.
  - exists 1. intro acc. cbn [str_nat_fuel]. rewrite parse_digit by lia.
    rewrite Nat.pow_1_r. reflexivity.
  - cbn [str_nat_fuel]. destruct (Nat.ltb n 10) eqn:E.
    + apply Nat.ltb_lt in E. exists 1. intro acc. rewrite parse_digit by lia.
      rewrite Nat.pow_1_r. reflexivity.
    + apply Nat.ltb_ge in E.
      destruct (IH (n / 10)) as [k Hk].
      { assert (n / 10 < n) by (apply Nat.div_lt; lia). lia. }
      exists (S k). intro acc. rewrite parse_digits_app, Hk.
      rewrite parse_digit by (apply Nat.mod_upper_bound; lia).
      f_equal. rewrite Nat.pow_succ_r'.
      pose proof (Nat.div_mod_eq n 10) as Hdm.
      transitivity (acc * 10 ^ k * 10 + (10 * (n / 10) + n mod 10)); [ring |].
      rewrite <- Hdm. ring.
Qed.

Lemma fold_format_default (nc q : string) :
  build_string 2 [("node_context", nc); ("query_str", q)]
    (list_ascii_of_string DEFAULT_CONTEXT_PROMPT) =
  inr (Some (list_ascii_of_string ("Here is some context that may be relevant:" ++ nl ++
                             "-----" ++ nl)
       ++ list_ascii_of_string nc
       ++ list_ascii_of_string (nl ++ "-----" ++ nl ++
            "Please write a response to the following question, using the above context:"
            ++ nl)
       ++ list_ascii_of_string q ++ list_ascii_of_string nl)%list).
Proof. vm_compute. reflexivity. Qed.

End ComponentExtra.

(** X1: the cleanup loop returns a non-empty list of lines in which no two
    consecutive lines are whitespace-only unchanged. *)
Theorem fixed_lines_keeps_clean_lines (lines : list PyStr.pystr) :
  lines <> [] -> Cleanup.no_two_blank lines -> Cleanup.fixed_lines lines = Some lines.
Proof.
  destruct lines as [|l0 rest]; [congruence | intros _ H].
  unfold Cleanup.fixed_lines. now rewrite TextFacts.fix_loop_id.
Qed.

Example fixed_lines_keeps_clean_lines_witness :
  let lines := [PyStr.of_string "a"; []; PyStr.of_string "b"; [0xA0%N];
                PyStr.of_string "c"] in
  Cleanup.fixed_lines lines = Some lines.
Proof.
  intro lines. apply fixed_lines_keeps_clean_lines; [discriminate |].
  vm_compute. repeat split; intros [H1 H2]; discriminate.
Defined.

(** X2: the cleanup loop is idempotent: running it again on its own
    output returns that output. *)
Theorem fixed_lines_idempotent (lines out : list PyStr.pystr) :
  Cleanup.fixed_lines lines = Some out -> Cleanup.fixed_lines out = Some out.
Proof.
  destruct lines as [|l0 rest]; [discriminate |]. intro H. injection H as <-.
  unfold Cleanup.fixed_lines at 1.
  now rewrite TextFacts.fix_loop_id by apply CleanupFacts.fix_loop_no_two_blank.
Qed.

Example fixed_lines_idempotent_witness :
  let a := PyStr.of_string "a" in
  let b := PyStr.of_string "b" in
  Cleanup.fixed_lines [a; []; [0x3000%N]; []; b] = Some [a; []; b] /\
  Cleanup.fixed_lines [a; []; b] = Some [a; []; b].
Proof.
  intros a b.
  assert (H : Cleanup.fixed_lines [a; []; [0x3000%N]; []; b] = Some [a; []; b])
    by (vm_compute; reflexivity).
  split; [exact H | exact (fixed_lines_idempotent _ _ H)].
Defined.

(** X3: a run of whitespace-only lines between two non-blank lines comes
    out as the run's first line alone: the output is the cleaned lines
    before the run, that first blank line, the next line, and the cleaned
    rest. *)
Theorem fixed_lines_collapses_blank_run (pre bs post : list PyStr.pystr) (r : PyStr.pystr) :
  pre <> [] -> PyStr.strip_empty (last pre []) = false ->
  bs <> [] -> Forall (fun b => PyStr.strip_empty b = true) bs ->
  PyStr.strip_empty r = false ->
  exists o, Cleanup.fixed_lines pre = Some o /\
    Cleanup.fixed_lines (pre ++ bs ++ r :: post) =
      Some (o ++ hd [] bs :: r :: Cleanup.fix_loop r post).
Proof.
  intros Hpre Hlast Hbs Hall Hr.
  destruct pre as [|p0 pre]; [congruence |].
  exists (p0 :: Cleanup.fix_loop p0 pre). split; [reflexivity |].
  cbn [app Cleanup.fixed_lines]. f_equal. f_equal.
  rewrite TextFacts.fix_loop_app. f_equal.
  destruct bs as [|b bs]; [congruence |].
  inversion Hall as [|b' bs' Hb Hbs']; subst.
  cbn [app Cleanup.fix_loop]. rewrite Hb, Hlast. cbn [andb hd].
  f_equal. rewrite (TextFacts.fix_loop_blank_run b bs (r :: post) Hb Hbs').
  cbn [Cleanup.fix_loop]. rewrite Hr. reflexivity.
Qed.

Example fixed_lines_collapses_blank_run_witness :
  let title := PyStr.of_string "title" in
  let body := PyStr.of_string "body" in
  let bs := [[0xA0%N]; PyStr.of_string " "; []] in
  exists o, Cleanup.fixed_lines [title] = Some o /\
    Cleanup.fixed_lines ([title] ++ bs ++ body :: [PyStr.of_string "end"]) =
      Some (o ++ hd [] bs :: body :: Cleanup.fix_loop body [PyStr.of_string "end"]).
Proof.
  intros title body bs.
  apply fixed_lines_collapses_blank_run; try discriminate; try reflexivity.
  repeat constructor.
Defined.

(** X4: the cleanup cell never fails on a text ([split] always yields a
    line) and is idempotent: cleaning the cleaned text returns it
    unchanged. *)
Theorem clean_text_idempotent (text : PyStr.pystr) :
  exists t', PyText.clean_text text = Some t' /\ PyText.clean_text t' = Some t'.
Proof.
  unfold PyText.clean_text.
  destruct (PyText.split_str PyText.nl_code text) as [|l0 rest] eqn:Es;
    [exfalso; exact (TextFacts.split_str_nonempty _ _ Es) |].
  cbn [Cleanup.fixed_lines].
  eexists. split; [reflexivity |].
  rewrite TextFacts.split_join_str.
  - cbn [Cleanup.fixed_lines].
    now rewrite TextFacts.fix_loop_id by apply CleanupFacts.fix_loop_no_two_blank.
  - discriminate.
  - intros x Hx. apply (TextFacts.split_str_no_sep PyText.nl_code text). rewrite Es.
    destruct Hx as [<- | Hx]; [left; reflexivity | right].
    exact (TextFacts.subseq_in _ _ (CleanupFacts.fix_loop_subseq l0 rest) x Hx).
Qed.

(** X5: a text in which no two consecutive lines are whitespace-only is
    left exactly as it was by the cleanup cell. *)
Theorem clean_text_keeps_clean_text (text : PyStr.pystr) :
  Cleanup.no_two_blank (PyText.split_str PyText.nl_code text) ->
  PyText.clean_text text = Some text.
Proof.
  intro H. unfold PyText.clean_text.
  destruct (PyText.split_str PyText.nl_code text) as [|l0 rest] eqn:Es;
    [exfalso; exact (TextFacts.split_str_nonempty _ _ Es) |].
  cbn [Cleanup.fixed_lines]. rewrite TextFacts.fix_loop_id by exact H.
  rewrite <- Es. now rewrite TextFacts.join_split_str.
Qed.

Example clean_text_keeps_clean_text_witness :
  let text := PyStr.of_string ("Tool use" ++ Py.nl ++ Py.nl ++ "Claude can call tools.")%string in
  Cleanup.no_two_blank (PyText.split_str PyText.nl_code text) /\
  PyText.clean_text text = Some text.
Proof.
  intro text.
  assert (H : Cleanup.no_two_blank (PyText.split_str PyText.nl_code text))
    by (vm_compute; repeat split; intros [H1 H2]; discriminate).
  split; [exact H | exact (clean_text_keeps_clean_text text H)].
Defined.

(** X6: when no message content contains a newline, splitting the loop's
    [chat_history_str] at ["\n"] gives back [str(x)] for each message of
    the history, in order. *)
Theorem chat_history_str_lines (msgs : list Py.ChatMessage) :
  msgs <> [] ->
  (forall m, In m msgs -> ~ In PyText.nl_char (list_ascii_of_string (Py.content m))) ->
  PyText.split PyText.nl_char (ChatLoop.join Py.nl (map ChatLoop.str_message msgs)) =
  map ChatLoop.str_message msgs.
Proof.
  intros Hne H. change Py.nl with (String PyText.nl_char EmptyString).
  apply TextFacts.split_join; [destruct msgs; [congruence | discriminate] |].
  intros x Hx. apply in_map_iff in Hx as (m & <- & Hm).
  unfold ChatLoop.str_message. rewrite !TextFacts.las_app.
  intro Hin. apply in_app_or in Hin as [Hin | Hin].
  - destruct (Py.role m); vm_compute in Hin; repeat destruct Hin as [Hin | Hin];
      try discriminate; contradiction.
  - apply in_app_or in Hin as [Hin | Hin]; [| exact (H m Hm Hin)].
    vm_compute in Hin. repeat destruct Hin as [Hin | Hin]; try discriminate; contradiction.
Qed.

Example chat_history_str_lines_witness :
  let msgs := [{| Py.role := Py.User; Py.content := "Hello!" |};
               {| Py.role := Py.Assistant; Py.content := "Hi, how can I help?" |}] in
  PyText.split PyText.nl_char (ChatLoop.join Py.nl (map ChatLoop.str_message msgs)) =
  ["user: Hello!"; "assistant: Hi, how can I help?"].
Proof.
  intro msgs. refine (chat_history_str_lines msgs _ _); [discriminate |].
  intros m Hm. destruct Hm as [<- | [<- | []]]; vm_compute; intro H;
    repeat destruct H as [H | H]; try discriminate; contradiction.
Defined.

(** X7: the notebook's response component builds its user message from
    [DEFAULT_CONTEXT_PROMPT] without ever raising: for any retrieved nodes
    and any query (braces included), the message is the prompt's fixed
    text with the node context and the query inserted verbatim. *)
Theorem notebook_user_message (l : Component.LLM) (nodes : list Py.NodeWithScore)
    (q : string) :
  Component.user_message_for (Component.notebook_response_component l) nodes q =
  inr {| Py.role := Py.User;
         Py.content :=
           "Here is some context that may be relevant:" ++ Py.nl ++ "-----" ++ Py.nl ++
           Component.node_context_from 0 nodes ++ Py.nl ++ "-----" ++ Py.nl ++
           "Please write a response to the following question, using the above context:"
           ++ Py.nl ++ q ++ Py.nl |}.
Proof.
  unfold Component.user_message_for.
  cbn [Py.str_format Py.python_str_format Component.context_prompt
    Component.notebook_response_component].
  unfold Py.format. rewrite ComponentExtra.fold_format_default.
  rewrite !ComponentExtra.soa_app, string_of_list_ascii_of_string.
  reflexivity.
Qed.

(** X8: the node context of a concatenation of node lists is the context
    of the first list followed by that of the second, whose chunks are
    numbered on from the length of the first. *)
Theorem node_context_app (i : nat) (a b : list Py.NodeWithScore) :
  Component.node_context_from i (a ++ b) =
  (Component.node_context_from i a ++ Component.node_context_from (i + List.length a) b)%string.
Proof.
  revert i. induction a as [|n a IH]; intro i; cbn [app List.length Component.node_context_from].
  - now rewrite Nat.add_0_r.
  - rewrite IH. replace (S i + List.length a) with (i + S (List.length a)) by lia.
    apply ComponentExtra.str_app_assoc.
Qed.

(** X9: the chunk headers [Context Chunk {idx}] of different indices
    differ: [str(idx)] is injective, its decimal digits read back as
    [idx]. *)
Theorem str_nat_injective (n m : nat) : Py.str_nat n = Py.str_nat m -> n = m.
Proof.
  intro H.
  destruct (ComponentExtra.parse_str_nat_fuel n n (le_n n)) as [k Hk].
  destruct (ComponentExtra.parse_str_nat_fuel m m (le_n m)) as [k' Hk'].
  specialize (Hk 0). specialize (Hk' 0). unfold Py.str_nat in H.
  rewrite H, Hk' in Hk. injection Hk. lia.
Qed.

Example str_nat_injective_witness : Py.str_nat 12 = Py.str_nat 12 /\ 12 = 12.
Proof. split; [reflexivity | apply str_nat_injective; reflexivity]. Defined.

(** X10: for any behaviour [F] of [str.format], when the component's
    [context_prompt.format(...)] call raises [e], [_run_component] and
    [_arun_component] raise [e] before any list is touched and before the
    LLM is called: the heap is unchanged. *)
Theorem run_component_format_error {F : Py.StrFormat} (g : Component.LLM)
    (self : Component.ResponseWithChatHistory) (kw : Component.RunKwargs)
    (h : Py.Heap) (e : Py.PyError) :
  Py.str_format (Component.context_prompt self)
    [("node_context", Component.node_context_from 0 (Component.kw_nodes kw));
     ("query_str", Component.kw_query_str kw)] = inl e ->
  Component._run_component (F := F) g self kw h = (h, inl e) /\
  Component._arun_component (F := F) g self kw h = (h, inl e).
Proof.
  intro Hf. split.
  - unfold Component._run_component, Py.bind at 1.
    rewrite (ComponentFacts.prepare_context_format_error _ _ _ _ _ _ Hf). reflexivity.
  - unfold Component._arun_component, Py.bind at 1.
    rewrite (ComponentFacts.prepare_context_format_error _ _ _ _ _ _ Hf). reflexivity.
Qed.

(** With CPython's [str.format], a positional field in the prompt raises
    [IndexError] (there are only keyword arguments). *)
Example run_component_format_error_witness :
  let self := {| Component.llm := Component.const_llm "ok";
                 Component.system_prompt := None;
                 Component.context_prompt := "{0}: {query_str}" |} in
  let kw := {| Component.kw_chat_history := 0; Component.kw_nodes := [];
               Component.kw_query_str := "Hello!" |} in
  let e := Py.IndexError "Replacement index 0 out of range for positional args tuple" in
  Component._run_component (Component.const_llm "ok") self kw Component.heap_one
    = (Component.heap_one, inl e) /\
  Component._arun_component (Component.const_llm "ok") self kw Component.heap_one
    = (Component.heap_one, inl e).
Proof.
  apply run_component_format_error. vm_compute. reflexivity.
Defined.

(** X11: for any behaviour [F] of [str.format], when the prompt formats to
    [s], [_run_component] returns exactly what the LLM answers to the
    caller's history followed by the user message with content [s],
    preceded by the system message when a system prompt is set. *)
Theorem run_component_llm_input {F : Py.StrFormat} (g : Component.LLM)
    (self : Component.ResponseWithChatHistory) (kw : Component.RunKwargs)
    (h : Py.Heap) (s : string) :
  Py.str_format (Component.context_prompt self)
    [("node_context", Component.node_context_from 0 (Component.kw_nodes kw));
     ("query_str", Component.kw_query_str kw)] = inr s ->
  let hist := (Py.read h (Component.kw_chat_history kw) ++
               [{| Py.role := Py.User; Py.content := s |}])%list in
  snd (Component._run_component (F := F) g self kw h) =
  Component.chat g (match Component.system_prompt self with
                    | Some sp => {| Py.role := Py.System; Py.content := sp |} :: hist
                    | None => hist
                    end).
Proof.
  intros Hf hist. unfold Component._run_component, Py.bind at 1.
  rewrite (ComponentFacts.prepare_context_heap _ _ _ _ _ _ Hf).
  destruct (Component.system_prompt self) as [sp|].
  - cbv [Py.bind Py.get_heap Py.lift]. cbn [fst snd].
    rewrite HeapFacts.read_alloc_at by (rewrite HeapFacts.next_write; reflexivity).
    rewrite HeapFacts.read_write_same. reflexivity.
  - cbv [Py.bind Py.get_heap Py.lift]. cbn [fst snd].
    rewrite HeapFacts.read_write_same. reflexivity.
Qed.

(** With CPython's [str.format] and the notebook's component: the
    failing client's error is what [_run_component] returns. *)
Example run_component_llm_input_witness :
  let kw := {| Component.kw_chat_history := 0; Component.kw_nodes := [];
               Component.kw_query_str := "Hello!" |} in
  let self := Component.notebook_response_component (Component.const_llm "x") in
  snd (Component._run_component Component.failing_llm self kw Component.heap_one) =
  inl (Py.LLMError "rate limited").
Proof.
  intros kw self.
  destruct (Py.str_format (Component.context_prompt self)
    [("node_context", Component.node_context_from 0 (Component.kw_nodes kw));
     ("query_str", Component.kw_query_str kw)]) as [e|s] eqn:Hf.
  - exfalso. vm_compute in Hf. discriminate.
  - exact (run_component_llm_input Component.failing_llm self kw Component.heap_one s Hf).
Defined.
